(** * Verification of the remote-code handler [app.py]

    The development embeds the three parts of [app.py]:
    - [to_json] with its nested [set_default] (the output sanitizer),
    - the context manager [NewEnv] ([__init__], [__enter__], [__exit__]),
    - [handler], the entry point called by the host.

    Python values are a tree datatype, exceptions are explicit results,
    and the process state touched by the program (the environment table
    [os.environ] and the directory [/tmp]) is threaded as a [world].

    Scope of the model.  Two limits of the interpreter are part of it:
    the number of nested calls that is left when [to_json] is entered,
    and the digit limit of the conversion between integers and text.
    Exhaustion of memory and the logging calls are not modelled.  Text
    is held in its UTF-8 encoding. *)

From Stdlib Require Import Ascii String ZArith.
From stdpp Require Import base gmap strings list pretty.

Open Scope string_scope.
Open Scope list_scope.
Open Scope nat_scope.

(** ** Exceptions and results *)

(** An exception as the program observes it: [exc_type] is
    [type(e).__name__], [exc_str] is what [str(e)] does (it returns a
    text, or it raises in its turn, as the [__str__] of a class defined
    by a script may), and [exc_is_Exception] tells whether the class
    derives from [Exception] (it does not for [SystemExit],
    [KeyboardInterrupt], [GeneratorExit] and direct subclasses of
    [BaseException]); only this is what an [except Exception] clause
    tests. *)
Inductive exn :=
| MkExn (type : string) (str : str_outcome) (is_Exception : bool)
with str_outcome :=
| StrOk (s : string)
| StrRaises (e : exn).

Definition exc_type (e : exn) : string :=
  match e with MkExn type _ _ => type end.
Definition exc_str (e : exn) : str_outcome :=
  match e with MkExn _ str _ => str end.
Definition exc_is_Exception (e : exn) : bool :=
  match e with MkExn _ _ is_Exception => is_Exception end.

Inductive result (A : Type) : Type :=
| Ok (a : A)
| Raise (e : exn).
Arguments Ok {A} a.
Arguments Raise {A} e.

#[global] Instance result_ret : MRet result := @Ok.
#[global] Instance result_bind : MBind result := λ A B f r,
  match r with
  | Ok a => f a
  | Raise e => Raise e
  end.
#[global] Instance result_fmap : FMap result := λ A B f r,
  match r with
  | Ok a => Ok (f a)
  | Raise e => Raise e
  end.

(** Left-to-right traversal that stops at the first exception. *)
Definition mapR {A B} (f : A → result B) : list A → result (list B) :=
  fix go xs :=
    match xs with
    | [] => Ok []
    | x :: xs' =>
        match f x with
        | Raise e => Raise e
        | Ok y =>
            match go xs' with
            | Raise e => Raise e
            | Ok ys => Ok (y :: ys)
            end
        end
    end.

(** [str(x)] as a computation. *)
Definition str_call (r : str_outcome) : result string :=
  match r with
  | StrOk s => Ok s
  | StrRaises e => Raise e
  end.

(** An exception of a built-in class that derives from [Exception]
    and whose [str()] is the text [msg]. *)
Definition error (cls msg : string) : exn := MkExn cls (StrOk msg) true.

(** The exceptions the program and the libraries it calls construct. *)
Definition KeyError (key : string) : exn :=
  error "KeyError" ("'" +:+ key +:+ "'").
Definition AssertionError (msg : string) : exn := error "AssertionError" msg.
(** [raise TypeError from e]: a [TypeError] without arguments. *)
Definition TypeError_bare : exn := error "TypeError" "".
Definition TypeError (msg : string) : exn := error "TypeError" msg.
Definition ValueError (msg : string) : exn := error "ValueError" msg.
Definition PermissionError (path : string) : exn :=
  error "PermissionError"
        ("[Errno 13] Permission denied: '" +:+ path +:+ "'").
Definition UnicodeDecodeError (reason : string) : exn :=
  error "UnicodeDecodeError" reason.
Definition RecursionError (doing : string) : exn :=
  error "RecursionError" ("maximum recursion depth exceeded" +:+ doing).
Definition circular : exn := ValueError "Circular reference detected".

(** ** Text: [str.upper] and the [in] operator on [str] *)

(** The two cases of an ASCII letter. *)
Definition upper_char (c : ascii) : ascii :=
  let n := N_of_ascii c in
  if ((97 <=? n) && (n <=? 122))%N then ascii_of_N (n - 32) else c.

Definition lower_char (c : ascii) : ascii :=
  let n := N_of_ascii c in
  if ((65 <=? n) && (n <=? 90))%N then ascii_of_N (n + 32) else c.

Definition bytes (codes : list N) : string :=
  string_of_list_ascii (map ascii_of_N codes).

(** The characters outside ASCII whose upper-case form holds an ASCII
    character, by their UTF-8 encoding: those of two bytes (sharp s,
    dotless i, n preceded by apostrophe, long s, j with caron) and
    those of three (h with line below, t with diaeresis, w and y with
    ring above, a with right half ring, and the ligatures ff, fi, fl,
    ffi, ffl, long s t, st), each with its upper-case form. *)
Definition upper_of_two (b1 b2 : N) : option string :=
  if ((b1 =? 195) && (b2 =? 159))%N then Some "SS"
  else if ((b1 =? 196) && (b2 =? 177))%N then Some "I"
  else if ((b1 =? 197) && (b2 =? 137))%N then Some (bytes [202; 188; 78]%N)
  else if ((b1 =? 197) && (b2 =? 191))%N then Some "S"
  else if ((b1 =? 199) && (b2 =? 176))%N then Some (bytes [74; 204; 140]%N)
  else None.

Definition upper_of_three (b1 b2 b3 : N) : option string :=
  if ((b1 =? 225) && (b2 =? 186))%N then
    if (b3 =? 150)%N then Some (bytes [72; 204; 177]%N)
    else if (b3 =? 151)%N then Some (bytes [84; 204; 136]%N)
    else if (b3 =? 152)%N then Some (bytes [87; 204; 138]%N)
    else if (b3 =? 153)%N then Some (bytes [89; 204; 138]%N)
    else if (b3 =? 154)%N then Some (bytes [65; 202; 190]%N)
    else None
  else if ((b1 =? 239) && (b2 =? 172))%N then
    if (b3 =? 128)%N then Some "FF"
    else if (b3 =? 129)%N then Some "FI"
    else if (b3 =? 130)%N then Some "FL"
    else if (b3 =? 131)%N then Some "FFI"
    else if (b3 =? 132)%N then Some "FFL"
    else if (b3 =? 133)%N then Some "ST"
    else if (b3 =? 134)%N then Some "ST"
    else None
  else None.

(** The character of that table at the head of [s], if there is one:
    its upper-case form and the number of bytes that follow its first
    byte. *)
Definition special (s : string) : option (string * nat) :=
  match s with
  | String c1 (String c2 rest) =>
      match upper_of_two (N_of_ascii c1) (N_of_ascii c2) with
      | Some img => Some (img, 1)
      | None =>
          match rest with
          | String c3 _ =>
              match upper_of_three (N_of_ascii c1) (N_of_ascii c2)
                                   (N_of_ascii c3) with
              | Some img => Some (img, 2)
              | None => None
              end
          | EmptyString => None
          end
      end
  | _ => None
  end.

(** [s.upper()].  ASCII letters and the characters of the table are
    converted as Python converts them.  Every other character is left
    as it is: its upper-case form, like the character itself, holds no
    ASCII character, which is all that a search for an ASCII text in
    the result depends on.  [skip] counts the bytes still to pass over
    of a character already converted. *)
Fixpoint upper_from (skip : nat) (s : string) : string :=
  match s with
  | EmptyString => EmptyString
  | String c s' =>
      match skip with
      | S k => upper_from k s'
      | O =>
          match special s with
          | Some (img, k) => img +:+ upper_from k s'
          | None => String (upper_char c) (upper_from 0 s')
          end
      end
  end.

Definition upper (s : string) : string := upper_from 0 s.

(** [contains sub s] is Python's [sub in s]. *)
Fixpoint contains (sub s : string) : bool :=
  String.prefix sub s ||
  match s with
  | EmptyString => false
  | String _ s' => contains sub s'
  end.

(** ** Python values *)

(** A float is kept as the text of its [repr]; the three non-finite
    values are told apart because the encoder spells them differently. *)
Inductive pyfloat :=
| FFinite (repr : string)
| FInf (negative : bool)
| FNaN.

(** Dictionary keys.  The encoder looks at a key only to coerce it to
    text, so a key of any other hashable class is kept by its class
    name. *)
Inductive pykey :=
| KStr (s : string)
| KInt (z : Z)
| KFloat (f : pyfloat)
| KBool (b : bool)
| KNone
| KOther (cls : string).

#[global] Instance pyfloat_eq_dec : EqDecision pyfloat.
Proof. solve_decision. Defined.
#[global] Instance pykey_eq_dec : EqDecision pykey.
Proof. solve_decision. Defined.

(** The classes of the tuple [lists] of [set_default]. *)
Inductive listlike := CSet | CNdarray | CSeries.

(** An object of a class the encoder does not write natively; these
    are the objects the encoder hands to [set_default].  A
    [FIter c iteration] is an instance of [set], [numpy.ndarray] or
    [pandas.Series] (or of a subclass), and [iteration] is what
    [list(obj)] does: it returns the elements in the order in which the
    object yields them, or it raises (an array of dimension zero, a
    subclass whose [__iter__] raises).  A [FObj cls r] is an instance
    of any other class, [frozenset], [deque] and [bytes] among them,
    observed only through [str()]. *)
Inductive foreign (V : Type) :=
| FIter (c : listlike) (iteration : result (list V))
| FObj (cls : string) (r : str_outcome).
Arguments FIter {V} c iteration.
Arguments FObj {V} cls r.

(** Values.  A [PBackRef k] stands for a slot that holds the [k]-th
    enclosing container again, i.e. a reference cycle such as the one
    built by [a = []; a.append(a)], written [PList [PBackRef 0]]. *)
#[local] Unset Elimination Schemes.
Inductive pyval :=
| PNone
| PBool (b : bool)
| PInt (z : Z)
| PFloat (f : pyfloat)
| PStr (s : string)
| PList (xs : list pyval)
| PTuple (xs : list pyval)
| PDict (items : list (pykey * pyval))
| PForeign (obj : foreign pyval)
| PBackRef (k : nat).
#[local] Set Elimination Schemes.

(** ** Limits of the interpreter *)

(** [int_max_str_digits] is [sys.get_int_max_str_digits()], 0 when the
    limit is switched off; [recursion_depth] is the number of nested
    calls left to the encoder, and to the decoder, when [to_json] calls
    them. *)
Record interpreter := MkInterpreter {
  int_max_str_digits : N;
  recursion_depth : nat
}.

(** The same interpreter with room for one more nested call. *)
Definition deeper (vm : interpreter) : interpreter :=
  MkInterpreter (int_max_str_digits vm) (S (recursion_depth vm)).

Definition decimal_digits (z : Z) : N :=
  N.of_nat (String.length (pretty (Z.abs z))).

Definition too_many_digits (limit : N) (z : Z) : bool :=
  ((0 <? limit) && (limit <? decimal_digits z))%N.

(** The [ValueError] of an [int] too long to be written. *)
Definition digits_exceeded (limit : N) : exn :=
  ValueError
    ("Exceeds the limit (" +:+ pretty limit +:+
     " digits) for integer string conversion; " +:+
     "use sys.set_int_max_str_digits() to increase the limit").

(** [repr] of an [int], as the encoder calls it. *)
Definition int_repr (limit : N) (z : Z) : result string :=
  if too_many_digits limit z then Raise (digits_exceeded limit)
  else Ok (pretty z).

(** [int] of a literal, as the decoder calls it. *)
Definition int_parse (limit : N) (z : Z) : result Z :=
  if too_many_digits limit z then
    Raise (ValueError
      ("Exceeds the limit (" +:+ pretty limit +:+
       " digits) for integer string conversion: value has " +:+
       pretty (decimal_digits z) +:+
       " digits; use sys.set_int_max_str_digits() to increase the limit"))
  else Ok z.

(** ** The JSON document between [dumps] and [loads]

    [dumps] writes a text and [loads] reads it back.  The text is
    represented by the document it denotes; an integer literal and a
    literal with a fraction or exponent are distinct, and the three
    non-standard literals [NaN], [Infinity], [-Infinity] (written by the
    encoder and accepted by the decoder by default) are float
    literals. *)
#[local] Unset Elimination Schemes.
Inductive json :=
| JNull
| JBool (b : bool)
| JInt (z : Z)
| JFloat (f : pyfloat)
| JStr (s : string)
| JArr (js : list json)
| JObj (members : list (string * json)).
#[local] Set Elimination Schemes.

(** [json.encoder]'s spelling of a float, used for float keys. *)
Definition floatstr (f : pyfloat) : string :=
  match f with
  | FFinite repr => repr
  | FInf false => "Infinity"
  | FInf true => "-Infinity"
  | FNaN => "NaN"
  end.

(** Coercion of a dictionary key by the encoder ([skipkeys] is false). *)
Definition encode_key (limit : N) (k : pykey) : result string :=
  match k with
  | KStr s => Ok s
  | KFloat f => Ok (floatstr f)
  | KBool true => Ok "true"
  | KBool false => Ok "false"
  | KNone => Ok "null"
  | KInt z => int_repr limit z
  | KOther cls =>
      Raise (TypeError
        ("keys must be str, int, float, bool or None, not " +:+ cls))
  end.

Definition encoding : string := " while encoding a JSON object".

(** The encoder of [json.dumps(o, default=default)].  A scalar is
    written directly.  A list, a tuple or a dictionary takes one nested
    call.  A container that is already being written is a circular
    reference.  Any other object is passed to [default], and the value
    it returns is encoded in its place, one call deeper.  When no
    nested call is left the encoder raises [RecursionError]. *)
Fixpoint iterencode (limit : N) (default : foreign pyval → result pyval)
    (depth : nat) (o : pyval) : result json :=
  match o with
  | PNone => Ok JNull
  | PBool b => Ok (JBool b)
  | PInt z => _ ← int_repr limit z; Ok (JInt z)
  | PFloat f => Ok (JFloat f)
  | PStr s => Ok (JStr s)
  | PList xs | PTuple xs =>
      match depth with
      | O => Raise (RecursionError encoding)
      | S depth' => JArr <$> mapR (iterencode limit default depth') xs
      end
  | PDict items =>
      match depth with
      | O => Raise (RecursionError encoding)
      | S depth' =>
          JObj <$> mapR (λ kv : pykey * pyval,
                           key ← encode_key limit kv.1;
                           j ← iterencode limit default depth' kv.2;
                           Ok (key, j)) items
      end
  | PBackRef _ =>
      match depth with
      | O => Raise (RecursionError encoding)
      | S _ => Raise circular
      end
  | PForeign obj =>
      o' ← default obj;
      match depth with
      | O => Raise (RecursionError encoding)
      | S depth' => iterencode limit default depth' o'
      end
  end.

Definition dumps (vm : interpreter) (default : foreign pyval → result pyval)
    (o : pyval) : result json :=
  iterencode (int_max_str_digits vm) default (recursion_depth vm) o.

(** [dict] built by the decoder from the members of an object: a
    repeated name keeps its first position and takes the last value. *)
Fixpoint dict_set (d : list (pykey * pyval)) (name : string) (v : pyval)
    : list (pykey * pyval) :=
  match d with
  | [] => [(KStr name, v)]
  | (k, x) :: d' =>
      if decide (k = KStr name) then (k, v) :: d'
      else (k, x) :: dict_set d' name v
  end.

Definition dict_of (members : list (string * pyval)) : pyval :=
  PDict (foldl (λ d (m : string * pyval), dict_set d m.1 m.2) [] members).

(** The decoder of [json.loads]: an array or an object takes one
    nested call. *)
Fixpoint scan (limit : N) (depth : nat) (j : json) {struct j}
    : result pyval :=
  match j with
  | JNull => Ok PNone
  | JBool b => Ok (PBool b)
  | JInt z => PInt <$> int_parse limit z
  | JFloat f => Ok (PFloat f)
  | JStr s => Ok (PStr s)
  | JArr js =>
      match depth with
      | O => Raise (RecursionError
                      " while decoding a JSON array from a unicode string")
      | S depth' => PList <$> mapR (scan limit depth') js
      end
  | JObj members =>
      match depth with
      | O => Raise (RecursionError
                      " while decoding a JSON object from a unicode string")
      | S depth' =>
          dict_of <$> mapR (λ m : string * json,
                              v ← scan limit depth' m.2; Ok (m.1, v)) members
      end
  end.

Definition loads (vm : interpreter) (j : json) : result pyval :=
  scan (int_max_str_digits vm) (recursion_depth vm) j.

(** ** [to_json] *)

(** [set_default], the [default] hook given to [dumps].  An instance of
    one of the classes in [lists] exists only when its module can be
    imported, so [isinstance(obj, lists)] holds exactly for the [FIter]
    objects. *)
Definition set_default (obj : foreign pyval) : result pyval :=
  match obj with
  | FIter _ iteration =>
      (* if isinstance(obj, lists): return list(obj) *)
      PList <$> iteration
  | FObj _ r =>
      (* try: return str(obj)
         except Exception as e: raise TypeError from e *)
      match str_call r with
      | Ok s => Ok (PStr s)
      | Raise e =>
          if exc_is_Exception e then Raise TypeError_bare else Raise e
      end
  end.

Definition to_json (vm : interpreter) (unsafe_json : pyval) : result pyval :=
  j ← dumps vm set_default unsafe_json;
  loads vm j.

(** ** Process state: [os.environ] and the entries of [/tmp] *)

(** An entry of the scratch directory.  [locked] tells that deleting the
    entry is refused by the operating system.  [NFile] is an entry for
    which [is_file()] holds, [NDir] a directory proper, [NLinkDir] a
    symbolic link to a directory (for which [is_dir()] holds as well),
    [NOther] an entry for which both answer false (a dangling link, a
    socket, a pipe), and [NUnresolved cls msg] a link whose target
    cannot be examined (a loop of links, a target behind a directory
    that may not be searched), so that [is_file()] raises the [OSError]
    of class [cls]. *)
#[local] Unset Elimination Schemes.
Inductive fsnode :=
| NFile (locked : bool)
| NDir (locked : bool) (children : list (string * fsnode))
| NLinkDir (locked : bool)
| NOther (locked : bool)
| NUnresolved (locked : bool) (cls msg : string).
#[local] Set Elimination Schemes.

(** [scandir_error] names the class and message of the [OSError] that
    [scandir("/tmp")] raises in
    this state, if it does (the directory is missing or may not be
    read). *)
Record world := MkWorld {
  environ : gmap string string;
  tmp : list (string * fsnode);
  scandir_error : option (string * string)
}.

(** [environ.clear()] and [environ.update(d)]. *)
Definition env_clear (env : gmap string string) : gmap string string := ∅.
Definition env_update (d env : gmap string string) : gmap string string :=
  d ∪ env.

(** Deletion of an entry met inside a tree that [rmtree] walks with
    [ignore_errors=True]: what is left of it, [None] when it is gone.
    A directory is emptied first; anything else, a link to a directory
    included, is unlinked. *)
Fixpoint delete_entry (n : fsnode) : option fsnode :=
  match n with
  | NFile locked | NLinkDir locked | NOther locked | NUnresolved locked _ _ =>
      if locked then Some n else None
  | NDir locked children =>
      let remaining :=
        (fix go (cs : list (string * fsnode)) : list (string * fsnode) :=
           match cs with
           | [] => []
           | (name, c) :: cs' =>
               match delete_entry c with
               | None => go cs'
               | Some c' => (name, c') :: go cs'
               end
           end) children in
      match remaining with
      | [] => if locked then Some (NDir locked []) else None
      | _ :: _ => Some (NDir locked remaining)
      end
  end.

(** [shutil.rmtree(path, ignore_errors=True)].  On a path that is not a
    directory, or that is a symbolic link, [rmtree] fails at once, and
    the error is ignored like every other; the entry stays. *)
Definition rmtree (n : fsnode) : option fsnode :=
  match n with
  | NDir _ _ => delete_entry n
  | _ => Some n
  end.

(** [os.remove(path)] on a file of [/tmp]. *)
Definition remove (name : string) (locked : bool) : result unit :=
  if locked then Raise (PermissionError ("/tmp/" +:+ name)) else Ok ().

(** The loop of [__exit__] over the entries that [scandir] yields: the
    outcome and the entries left in [/tmp]. *)
Fixpoint scandir_loop (items : list (string * fsnode))
    : result unit * list (string * fsnode) :=
  match items with
  | [] => (Ok (), [])
  | (name, n) :: rest =>
      match n with
      | NUnresolved _ cls msg =>                 (* item.is_file() raises *)
          (Raise (error cls msg), items)
      | NFile locked =>                               (* item.is_file() *)
          match remove name locked with
          | Raise e => (Raise e, items)
          | Ok _ => scandir_loop rest
          end
      | NDir _ _ | NLinkDir _ =>                      (* item.is_dir() *)
          let '(r, remaining) := scandir_loop rest in
          match rmtree n with
          | None => (r, remaining)
          | Some n' => (r, (name, n') :: remaining)
          end
      | NOther _ =>
          let '(r, remaining) := scandir_loop rest in
          (r, (name, n) :: remaining)
      end
  end.

(** [for item in scandir("/tmp"): ...] *)
Definition cleanup (w : world) : result unit * list (string * fsnode) :=
  match scandir_error w with
  | Some (cls, msg) => (Raise (error cls msg), tmp w)
  | None => scandir_loop (tmp w)
  end.

(** ** Computations of the program: state and exceptions *)

Definition py (A : Type) : Type := world → result A * world.

#[global] Instance py_ret : MRet py := λ A a w, (Ok a, w).
#[global] Instance py_bind : MBind py := λ A B f m w,
  match m w with
  | (Ok a, w') => f a w'
  | (Raise e, w') => (Raise e, w')
  end.

Definition lift {A} (r : result A) : py A := λ w, (r, w).

(** [assert cond, msg] *)
Definition py_assert (cond : bool) (msg : string) : py unit :=
  lift (if cond then Ok () else Raise (AssertionError msg)).

(** [d[key]] on a dictionary with text keys. *)
Definition getitem (d : gmap string pyval) (key : string) : py pyval :=
  lift (match d !! key with
        | Some v => Ok v
        | None => Raise (KeyError key)
        end).

(** [try: body  except Exception as e: handle(e)].  An exception that
    [handle] raises leaves the statement. *)
Definition try_except_Exception {A} (body : py A) (handle : exn → py A)
    : py A := λ w,
  match body w with
  | (Ok a, w') => (Ok a, w')
  | (Raise e, w') =>
      if exc_is_Exception e then handle e w' else (Raise e, w')
  end.

(** ** [NewEnv] *)

Record NewEnv := MkNewEnv { orig_environ : gmap string string }.

(** [__init__]: [self.orig_environ = dict(environ)] *)
Definition NewEnv_init (w : world) : NewEnv :=
  MkNewEnv (environ w).

Definition exclude_patterns : list string := ["AWS"; "KEY"].

(** The condition of the comprehension in [__enter__]. *)
Definition kept (key : string) : bool :=
  forallb (λ pattern, negb (contains (upper pattern) (upper key)))
          exclude_patterns.

Definition NewEnv_enter (self : NewEnv) : py unit := λ w,
  let cleared := env_clear (environ w) in
  let filtered :=
    filter (λ kv : string * string, kept kv.1 = true) (orig_environ self) in
  (Ok (), MkWorld (env_update filtered cleared) (tmp w) (scandir_error w)).

Definition NewEnv_exit (self : NewEnv) : py unit := λ w,
  let cleared := env_clear (environ w) in
  let restored := env_update (orig_environ self) cleared in
  let '(r, remaining) := cleanup w in
  (r, MkWorld restored remaining (scandir_error w)).

(** [with NewEnv(): body].  [__exit__] returns [None], so an exception
    of the body is raised again after it; an exception of [__exit__]
    itself takes the place of the body's result or exception. *)
Definition with_NewEnv {A} (body : py A) : py A := λ w,
  let self := NewEnv_init w in
  match NewEnv_enter self w with
  | (Raise e, w1) => (Raise e, w1)
  | (Ok _, w1) =>
      let '(r, w2) := body w1 in
      match NewEnv_exit self w2 with
      | (Raise e, w3) => (Raise e, w3)
      | (Ok _, w3) => (r, w3)
      end
  end.

(** The state in which the block under [with] starts. *)
Definition entered (w : world) : world :=
  (NewEnv_enter (NewEnv_init w) w).2.

(** ** [handler] *)

Record lambda_context := MkContext { aws_request_id : string }.

(** The outcome of [response.data.decode("utf-8")]. *)
Inductive decoded :=
| Decoded (text : string)
| Undecodable (reason : string).

(** The response of [http.request]: [status] and [data], the latter
    through the only use the program makes of it. *)
Record http_response := MkResponse {
  status : Z;
  data_decode : decoded
}.

(** [http.request] returns a response or raises one of the client's
    errors, all of which derive from [Exception] and print as text. *)
Inductive fetch_outcome :=
| Fetched (response : http_response)
| FetchFailed (cls msg : string).

(** The entry point [g["main"]] of an executed script. *)
Definition main_fn : Type := pyval → py pyval.

(** What lies outside the program: the HTTP client, the meaning of the
    fetched text when [exec] runs it in the empty namespace [g] (it may
    change the process state, raise, or finish, with or without a
    binding for ["main"]), the module constant [api_key], and the
    limits of the interpreter at the call of [to_json]. *)
Record externals := MkExternals {
  http_request : pyval → pyval → fetch_outcome;
  exec : string → py (option main_fn);
  api_key : string;
  python : interpreter
}.

Definition newline : string := String (ascii_of_nat 10) EmptyString.

(** [event.get("headers", {"Authorization": f"Token {api_key}"})] *)
Definition headers_of (ext : externals) (event : gmap string pyval) : pyval :=
  default (PDict [(KStr "Authorization", PStr ("Token " +:+ api_key ext))])
          (event !! "headers").

(** The block under [with NewEnv():]. *)
Definition run (ext : externals) (event : gmap string pyval) : py pyval :=
  inputs ← getitem event "inputs";
  url ← getitem event "url";
  let headers := headers_of ext event in
  response ← lift (match http_request ext url headers with
                   | Fetched response => Ok response
                   | FetchFailed cls msg => Raise (error cls msg)
                   end);
  code ← lift (match data_decode response with
               | Decoded text => Ok text
               | Undecodable reason => Raise (UnicodeDecodeError reason)
               end);
  _ ← py_assert (bool_decide (status response = 200%Z))
                ("Failed to fetch app code: " +:+ code +:+ newline);
  g ← exec ext code;
  _ ← py_assert (bool_decide (is_Some g))
                "'def main(inputs):' is not defined";
  match g with
  | None => lift (Raise (KeyError "main"))
  | Some main =>
      outputs ← main inputs;
      body ← lift (to_json (python ext) outputs);
      mret (PDict [(KStr "statusCode", PInt 200); (KStr "body", body)])
  end.

(** The [except Exception as e] clause: [str(e)] is evaluated before
    the response is built, and may itself raise.  It is evaluated once
    for the log and once for the response; the two evaluations end
    alike. *)
Definition report (context : lambda_context) (e : exn) : py pyval :=
  errorMessage ← lift (str_call (exc_str e));
  mret (PDict [(KStr "statusCode", PInt 400);
               (KStr "body",
                PDict [(KStr "errorMessage", PStr errorMessage);
                       (KStr "errorType", PStr (exc_type e));
                       (KStr "stackTrace", PList []);
                       (KStr "requestId", PStr (aws_request_id context))])]).

Definition handler (ext : externals) (event : gmap string pyval)
    (context : lambda_context) : py pyval :=
  try_except_Exception (with_NewEnv (run ext event)) (report context).

(** ** Vocabulary of the statements *)

(** A value [loads] can produce: [None], [bool], [int], [float], [str],
    [list], and [dict] with distinct text keys.  [number_ok] says which
    floats count as numbers. *)
Fixpoint json_composed (number_ok : pyfloat → bool) (v : pyval) : bool :=
  match v with
  | PNone | PBool _ | PInt _ | PStr _ => true
  | PFloat f => number_ok f
  | PList xs => forallb (json_composed number_ok) xs
  | PDict items =>
      bool_decide (NoDup items.*1) &&
      forallb (λ kv : pykey * pyval,
                 match kv.1 with KStr _ => true | _ => false end &&
                 json_composed number_ok kv.2) items
  | _ => false
  end.

Definition any_float (f : pyfloat) : bool := true.



(** The nested calls the encoder needs to write [v]: one for a list, a
    tuple, a dictionary or an object given to [set_default], on top of
    those of what it holds or is converted to. *)
Fixpoint levels (v : pyval) : nat :=
  match v with
  | PList xs | PTuple xs => S (foldr (λ x n, levels x `max` n) 0 xs)
  | PDict items =>
      S (foldr (λ (kv : pykey * pyval) n, levels kv.2 `max` n) 0 items)
  | PForeign (FIter _ (Ok xs)) =>
      S (S (foldr (λ x n, levels x `max` n) 0 xs))
  | PForeign (FIter _ (Raise _)) => 0
  | PForeign (FObj _ _) => 1
  | PBackRef _ => 1
  | _ => 0
  end.

(** The key, if it is an [int], has no more digits than the limit
    allows. *)
Definition key_fits (limit : N) (k : pykey) : bool :=
  match k with
  | KInt z => negb (too_many_digits limit z)
  | _ => true
  end.

(** No [int] in [v], as a value or as a key, has more digits than the
    limit allows. *)
Fixpoint digits_ok (limit : N) (v : pyval) : bool :=
  match v with
  | PInt z => negb (too_many_digits limit z)
  | PList xs | PTuple xs | PForeign (FIter _ (Ok xs)) =>
      forallb (digits_ok limit) xs
  | PDict items =>
      forallb (λ kv : pykey * pyval,
                 key_fits limit kv.1 && digits_ok limit kv.2) items
  | _ => true
  end.

(** [v] is within the limits of the interpreter. *)
Definition within_limits (vm : interpreter) (v : pyval) : bool :=
  digits_ok (int_max_str_digits vm) v &&
  bool_decide (levels v ≤ recursion_depth vm).

(** A dictionary as the decoder builds it: distinct keys, all of them
    text, and values that satisfy [Q]. *)
Definition dict_ok (Q : pyval → Prop) (d : list (pykey * pyval)) : Prop :=
  NoDup d.*1 ∧ Forall (λ kv, (∃ s, kv.1 = KStr s) ∧ Q kv.2) d.


(** The list whose only element is the list itself. *)
Definition self_list : pyval := PList [PBackRef 0].


(** Text that holds ASCII characters only. *)
Definition is_ascii (c : ascii) : bool := (N_of_ascii c <? 128)%N.

Fixpoint ascii_text (s : string) : bool :=
  match s with
  | EmptyString => true
  | String c s' => is_ascii c && ascii_text s'
  end.

(** Upper case of the ASCII letters alone. *)
Fixpoint ascii_upper (s : string) : string :=
  match s with
  | EmptyString => EmptyString
  | String c s' => String (upper_char c) (ascii_upper s')
  end.

(** The wording of the environment filter: a key is withheld when some
    part of it spells "aws" or "key" with each letter in either case. *)
Fixpoint case_variant (pat s : string) : Prop :=
  match pat, s with
  | EmptyString, EmptyString => True
  | String p pat', String c s' =>
      (c = lower_char p ∨ c = upper_char p) ∧ case_variant pat' s'
  | _, _ => False
  end.

Definition occurs_in (sub s : string) : Prop :=
  ∃ pre post, s = pre +:+ sub +:+ post.

Definition names_secret (key : string) : Prop :=
  ∃ pat sub,
    pat ∈ ["aws"; "key"] ∧ case_variant pat sub ∧ occurs_in sub key.

(** ** The sanitizer as described

    The description of the sanitizer, node by node: a node that JSON
    represents natively is kept (a tuple is written as an array, a key
    is written as text), a set, array or series becomes the list of
    the elements it yields, in the order in which it yields them, each
    normalized in turn, and any other node becomes its string
    representation. *)
Definition key_string (k : pykey) : string :=
  match encode_key 0 k with
  | Ok s => s
  | Raise _ => ""
  end.

Fixpoint normalize_spec (v : pyval) : pyval :=
  match v with
  | PList xs | PTuple xs | PForeign (FIter _ (Ok xs)) =>
      PList (map normalize_spec xs)
  | PForeign (FObj _ (StrOk s)) => PStr s
  | PDict items =>
      dict_of (map (λ kv : pykey * pyval,
                      (key_string kv.1, normalize_spec kv.2)) items)
  | _ => v
  end.

(** The values in which no node fails: no reference cycle, no object
    whose [str()] raises, no set, array or series whose iteration
    raises, no key outside [str], [int], [float], [bool] and [None]. *)
Fixpoint encodable (v : pyval) : bool :=
  match v with
  | PList xs | PTuple xs | PForeign (FIter _ (Ok xs)) => forallb encodable xs
  | PDict items =>
      forallb (λ kv : pykey * pyval,
                 match kv.1 with KOther _ => false | _ => true end &&
                 encodable kv.2) items
  | PForeign (FIter _ (Raise _)) => false
  | PForeign (FObj _ (StrOk _)) => true
  | PForeign (FObj _ (StrRaises _)) => false
  | PBackRef _ => false
  | _ => true
  end.

(** ** What a script may do to the environment

    The operations of [os.environ] available to a script, and a [main]
    that performs a sequence of them and then ends as [ending] says. *)
Inductive env_op :=
| Setenv (key value : string)
| Unsetenv (key : string)
| Clearenv.

Definition apply_env_op (env : gmap string string) (op : env_op)
    : gmap string string :=
  match op with
  | Setenv key value => <[key := value]> env
  | Unsetenv key => delete key env
  | Clearenv => ∅
  end.

Definition mutate (ops : list env_op) : py unit := λ w,
  (Ok (), MkWorld (foldl apply_env_op (environ w) ops) (tmp w)
                  (scandir_error w)).

Definition main_mutating (ops : list env_op) (ending : result pyval)
    : main_fn := λ _,
  _ ← mutate ops; lift ending.

(** ** The entries of [/tmp], as [__exit__] meets them *)






(** ** The two shapes of response *)

Definition success_response (body : pyval) : pyval :=
  PDict [(KStr "statusCode", PInt 200); (KStr "body", body)].

Definition failure_response (errorMessage errorType requestId : string)
    : pyval :=
  PDict [(KStr "statusCode", PInt 400);
         (KStr "body",
          PDict [(KStr "errorMessage", PStr errorMessage);
                 (KStr "errorType", PStr errorType);
                 (KStr "stackTrace", PList []);
                 (KStr "requestId", PStr requestId)])].

(** ** Sample inputs *)

(** An interpreter with the default limits: 4300 digits, and 1000
    nested calls left. *)
Definition cpython : interpreter := MkInterpreter 4300 1000.

Definition sample_context : lambda_context := MkContext "req-1".

Definition sample_event : gmap string pyval :=
  {[ "inputs" := PDict [(KStr "x", PInt 1)];
     "url" := PStr "https://good.example/a.script" ]}.

Definition sample_world : world :=
  MkWorld {[ "HOME" := "/root"; "AWS_REGION" := "eu-west-1";
             "myKey" := "k"; "PATH" := "/usr/bin" ]}
          [("out.txt", NFile false);
           ("cache", NDir false [("a", NFile false)])]
          None.

(** [/tmp] holds a file whose removal is refused. *)
Definition pinned_world : world :=
  MkWorld (environ sample_world) [("pinned", NFile true)] None.

(** [/tmp] cannot be listed. *)
Definition unlisted_world : world :=
  MkWorld (environ sample_world) []
          (Some ("FileNotFoundError",
                 "[Errno 2] No such file or directory: '/tmp'")).

(** A host where every fetch answers [st] with the text [text], whose
    execution behaves as [script]. *)
Definition serving (st : Z) (text : string)
    (script : py (option main_fn)) : externals :=
  MkExternals (λ _ _, Fetched (MkResponse st (Decoded text)))
              (λ _, script) "" cpython.

Definition defines (main : main_fn) : py (option main_fn) := mret (Some main).
Definition main_returns (v : pyval) : main_fn := λ _, mret v.
Definition main_raises (e : exn) : main_fn := λ _, lift (Raise e).

Definition SystemExit : exn := MkExn "SystemExit" (StrOk "1") false.
Definition KeyboardInterrupt : exn :=
  MkExn "KeyboardInterrupt" (StrOk "") false.

(** An exception of a class that derives from [Exception] and whose
    [__str__] returns [None]: [str(e)] raises a [TypeError]. *)
Definition Unprintable : exn :=
  MkExn "Unprintable"
        (StrRaises (TypeError "__str__ returned non-string (type NoneType)"))
        true.

Definition the_set_123 : pyval :=
  PForeign (FIter CSet (Ok [PInt 1; PInt 2; PInt 3])).


(** The key "aw" followed by the sharp s. *)
Definition aw_sharp_s : string := "aw" +:+ bytes [195; 159]%N.

(** A process whose environment holds that key. *)
Definition sharp_world : world :=
  MkWorld (<[aw_sharp_s := "v"]> (environ sample_world)) [] None.

(** The key whose lookup fails first in [handler]. *)
Definition first_missing (event : gmap string pyval) : string :=
  match event !! "inputs" with
  | Some _ => "url"
  | None => "inputs"
  end.

(** ** Module constants and further vocabulary *)

(** [api_key = getenv("API_ACCESS_KEY", "")], evaluated once when the
    module is loaded in the environment [env]. *)
Definition api_key_variable : string := "API_ACCESS_KEY".

Definition module_api_key (env : gmap string string) : string :=
  default "" (env !! api_key_variable).


(** Whether [handler] gets as far as [exec]: both keys are there, the
    fetch answers 200 and the body decodes. *)
Definition reaches_exec (ext : externals) (event : gmap string pyval)
    : bool :=
  match event !! "inputs", event !! "url" with
  | Some _, Some url =>
      match http_request ext url (headers_of ext event) with
      | Fetched resp =>
          bool_decide (status resp = 200%Z) &&
          match data_decode resp with
          | Decoded _ => true
          | Undecodable _ => false
          end
      | FetchFailed _ _ => false
      end
  | _, _ => false
  end.


Definition garbled (st : Z) (reason : string) : externals :=
  MkExternals (λ _ _, Fetched (MkResponse st (Undecodable reason)))
              (λ _, mret None) "" cpython.

(** A process whose environment holds the access key. *)
Definition keyed_world : world :=
  MkWorld (<[api_key_variable := "t0k3n"]> (environ sample_world)) [] None.

(** * Properties *)

(** ** Induction on values *)

(** Induction principle that reaches the values nested in containers. *)
Lemma pyval_ind' (P : pyval → Prop) :
  P PNone →
  (∀ b, P (PBool b)) →
  (∀ z, P (PInt z)) →
  (∀ f, P (PFloat f)) →
  (∀ s, P (PStr s)) →
  (∀ xs, Forall P xs → P (PList xs)) →
  (∀ xs, Forall P xs → P (PTuple xs)) →
  (∀ items, Forall (λ kv, P kv.2) items → P (PDict items)) →
  (∀ c xs, Forall P xs → P (PForeign (FIter c (Ok xs)))) →
  (∀ c e, P (PForeign (FIter c (Raise e)))) →
  (∀ cls r, P (PForeign (FObj cls r))) →
  (∀ k, P (PBackRef k)) →
  ∀ v, P v.
Proof.
  intros HNone HBool HInt HFloat HStr HList HTuple HDict HIter HIterR HObj
    HBack.
  fix IH 1.
  intros [ | b | z | f | s | xs | xs | items | [c [xs | e] | cls r] | k].
  - exact HNone.
  - apply HBool.
  - apply HInt.
  - apply HFloat.
  - apply HStr.
  - apply HList.
    induction xs as [|x xs IHxs]; constructor; [apply IH | exact IHxs].
  - apply HTuple.
    induction xs as [|x xs IHxs]; constructor; [apply IH | exact IHxs].
  - apply HDict. induction items as [|[k x] items IHit]; constructor;
      [apply IH | exact IHit].
  - apply HIter.
    induction xs as [|x xs IHxs]; constructor; [apply IH | exact IHxs].
  - apply HIterR.
  - apply HObj.
  - apply HBack.
Qed.

(** ** The traversal [mapR] *)

Lemma mapR_ext {A B} (f g : A → result B) xs :
  Forall (λ x, f x = g x) xs → mapR f xs = mapR g xs.
Proof.
  induction 1 as [|x xs Hx _ IH]; simpl; [done|].
  rewrite Hx. destruct (g x); [|done]. by rewrite IH.
Qed.

Lemma mapR_fmap {A B C} (f : A → result B) (g : B → C) xs :
  mapR (λ x, g <$> f x) xs = map g <$> mapR f xs.
Proof.
  induction xs as [|x xs IH]; simpl; [done|].
  destruct (f x) as [y|e]; simpl; [|done].
  rewrite IH. by destruct (mapR f xs).
Qed.

Lemma mapR_Ok {A B} (f : A → result B) xs ys :
  mapR f xs = Ok ys ↔ Forall2 (λ x y, f x = Ok y) xs ys.
Proof.
  revert ys. induction xs as [|x xs IH]; intros ys; simpl.
  - split; [intros [= <-]; constructor | by inversion 1].
  - destruct (f x) as [y|e] eqn:Hx.
    + destruct (mapR f xs) as [ys'|e] eqn:Hxs.
      * split.
        -- intros [= <-]. constructor; [done|]. by apply IH.
        -- inversion 1 as [|? y' ? ys'' Hy Hys]; subst.
           apply IH in Hys. congruence.
      * split; [done|]. inversion 1 as [|? y' ? ys'' Hy Hys]; subst.
        apply IH in Hys. done.
    + split; [done|]. inversion 1; subst. congruence.
Qed.


(** Two traversals in a row are one, when the second step cannot fail
    on what the first step returns. *)
Lemma mapR_bind {A B C} (f : A → result B) (g : B → result C) xs :
  Forall (λ x, ∀ y, f x = Ok y → ∃ z, g y = Ok z) xs →
  mapR (λ x, f x ≫= g) xs = mapR f xs ≫= mapR g.
Proof.
  induction 1 as [|x xs Hx _ IH]; simpl; [done|].
  destruct (f x) as [y|e]; simpl; [|done].
  destruct (Hx y eq_refl) as [z Hz]. rewrite Hz, IH.
  destruct (mapR f xs) as [ys|e]; simpl; [|done]. by rewrite Hz.
Qed.

(** ** The encoder and the decoder *)

Lemma int_repr_parse limit z s :
  int_repr limit z = Ok s → int_parse limit z = Ok z.
Proof.
  unfold int_repr, int_parse. by destruct (too_many_digits limit z).
Qed.

(** What the decoder reads with some nested calls left, it reads with
    one more. *)
Lemma scan_mono limit depth :
  ∀ j r, scan limit depth j = Ok r → scan limit (S depth) j = Ok r.
Proof.
  induction depth as [|depth IH]; intros [ | | | | | js | members] r;
    cbn [scan]; try done; intros Hr.
  - destruct (mapR (scan limit depth) js) as [ys|e] eqn:Hjs; [|done].
    apply mapR_Ok in Hjs.
    assert (mapR (scan limit (S depth)) js = Ok ys) as ->; [|done].
    apply mapR_Ok. eapply Forall2_impl; [exact Hjs|]. intros j y. apply IH.
  - destruct (mapR _ members) as [ys|e] eqn:Hms; [|done].
    apply mapR_Ok in Hms.
    assert (mapR (λ m : string * json,
                    v ← scan limit (S depth) m.2; Ok (m.1, v)) members
            = Ok ys) as ->; [|done].
    apply mapR_Ok. eapply Forall2_impl; [exact Hms|]. intros m y.
    cbn beta. destruct (scan limit depth m.2) as [v|e] eqn:Hv; [|done].
    by rewrite (IH _ _ Hv).
Qed.

(** The decoder accepts every document that the encoder writes, with
    the nested calls the encoder had. *)
Lemma scan_encoded limit default depth :
  ∀ o j, iterencode limit default depth o = Ok j →
         ∃ r, scan limit depth j = Ok r.
Proof.
  induction depth as [|depth IH];
    intros [ | b | z | f | s | xs | xs | items | obj | k] j;
    cbn [iterencode]; try done; try (intros [= <-]; by eexists).
  - destruct (int_repr limit z) as [s|e] eqn:Hz; [|done]. intros [= <-].
    cbn. rewrite (int_repr_parse _ _ _ Hz). by eexists.
  - by destruct (default obj).
  - destruct (int_repr limit z) as [s|e] eqn:Hz; [|done]. intros [= <-].
    cbn. rewrite (int_repr_parse _ _ _ Hz). by eexists.
  - destruct (mapR _ xs) as [js|e] eqn:Hxs; [|done]. intros [= <-].
    apply mapR_Ok in Hxs. cbn [scan].
    assert (∃ ys, mapR (scan limit depth) js = Ok ys) as [ys ->];
      [|by eexists].
    induction Hxs as [|x j xs js Hx _ [ys IHxs]]; [by eexists|].
    destruct (IH _ _ Hx) as [y Hy]. exists (y :: ys). simpl.
    by rewrite Hy, IHxs.
  - destruct (mapR _ xs) as [js|e] eqn:Hxs; [|done]. intros [= <-].
    apply mapR_Ok in Hxs. cbn [scan].
    assert (∃ ys, mapR (scan limit depth) js = Ok ys) as [ys ->];
      [|by eexists].
    induction Hxs as [|x j xs js Hx _ [ys IHxs]]; [by eexists|].
    destruct (IH _ _ Hx) as [y Hy]. exists (y :: ys). simpl.
    by rewrite Hy, IHxs.
  - destruct (mapR _ items) as [ms|e] eqn:Hms; [|done]. intros [= <-].
    apply mapR_Ok in Hms. cbn [scan].
    assert (∃ ys, mapR (λ m : string * json,
                          v ← scan limit depth m.2; Ok (m.1, v)) ms = Ok ys)
      as [ys ->]; [|by eexists].
    induction Hms as [|kv m items ms Hkv _ [ys IHms]]; [by eexists|].
    cbn beta in Hkv.
    destruct (encode_key limit kv.1) as [key|]; [|done].
    destruct (iterencode limit default depth kv.2) as [j|] eqn:Hj; [|done].
    injection Hkv as <-. destruct (IH _ _ Hj) as [y Hy].
    exists ((key, y) :: ys). simpl. by rewrite Hy, IHms.
  - destruct (default obj) as [o'|]; [|done]. simpl. intros Hj.
    destruct (IH _ _ Hj) as [r Hr]. exists r. by apply scan_mono.
Qed.

(** Equations of the encoder with a nested call left. *)
Lemma iterencode_list limit default depth xs :
  iterencode limit default (S depth) (PList xs) =
  JArr <$> mapR (iterencode limit default depth) xs.
Proof. done. Qed.

Lemma iterencode_tuple limit default depth xs :
  iterencode limit default (S depth) (PTuple xs) =
  JArr <$> mapR (iterencode limit default depth) xs.
Proof. done. Qed.

Lemma iterencode_dict limit default depth items :
  iterencode limit default (S depth) (PDict items) =
  JObj <$> mapR (λ kv : pykey * pyval,
                   key ← encode_key limit kv.1;
                   j ← iterencode limit default depth kv.2;
                   Ok (key, j)) items.
Proof. done. Qed.

Lemma iterencode_foreign limit default depth obj :
  iterencode limit default (S depth) (PForeign obj) =
  default obj ≫= iterencode limit default depth.
Proof. done. Qed.

(** What the encoder writes with some nested calls left, it writes
    with one more. *)
Lemma iterencode_mono limit default depth :
  ∀ o j, iterencode limit default depth o = Ok j →
         iterencode limit default (S depth) o = Ok j.
Proof.
  induction depth as [|depth IH];
    intros [ | b | z | f | s | xs | xs | items | obj | k] j; try done.
  - cbn [iterencode]. by destruct (default obj).
  - rewrite !iterencode_list.
    destruct (mapR _ xs) as [js|e] eqn:Hxs; [|done]. intros [= <-].
    apply mapR_Ok in Hxs.
    assert (mapR (iterencode limit default (S depth)) xs = Ok js) as ->;
      [|done].
    apply mapR_Ok. eapply Forall2_impl; [exact Hxs|]. intros x y. apply IH.
  - rewrite !iterencode_tuple.
    destruct (mapR _ xs) as [js|e] eqn:Hxs; [|done]. intros [= <-].
    apply mapR_Ok in Hxs.
    assert (mapR (iterencode limit default (S depth)) xs = Ok js) as ->;
      [|done].
    apply mapR_Ok. eapply Forall2_impl; [exact Hxs|]. intros x y. apply IH.
  - rewrite !iterencode_dict.
    destruct (mapR _ items) as [ms|e] eqn:Hms; [|done]. intros [= <-].
    apply mapR_Ok in Hms.
    assert (mapR (λ kv : pykey * pyval,
                    key ← encode_key limit kv.1;
                    j ← iterencode limit default (S depth) kv.2;
                    Ok (key, j)) items = Ok ms) as ->; [|done].
    apply mapR_Ok. eapply Forall2_impl; [exact Hms|]. intros kv m.
    cbn beta. destruct (encode_key limit kv.1) as [key|]; [|done].
    cbn [mbind result_bind].
    destruct (iterencode limit default depth kv.2) as [j|] eqn:Hj; [|done].
    by rewrite (IH _ _ Hj).
  - rewrite !iterencode_foreign.
    destruct (default obj) as [o'|]; [|done]. cbn [mbind result_bind].
    apply IH.
Qed.

(** ** Equations of [to_json] *)

Lemma to_json_encoded vm v j :
  dumps vm set_default v = Ok j → ∃ r, to_json vm v = Ok r.
Proof.
  intros Hj. unfold to_json. rewrite Hj. simpl.
  by eapply scan_encoded.
Qed.

Lemma to_json_list vm xs :
  to_json (deeper vm) (PList xs) = PList <$> mapR (to_json vm) xs.
Proof.
  destruct vm as [limit depth]. unfold to_json, dumps, loads, deeper.
  cbn [int_max_str_digits recursion_depth]. rewrite iterencode_list.
  rewrite mapR_bind.
  - by destruct (mapR (iterencode limit set_default depth) xs).
  - apply Forall_forall. intros x _ j. apply scan_encoded.
Qed.

Lemma to_json_tuple vm xs :
  to_json (deeper vm) (PTuple xs) = PList <$> mapR (to_json vm) xs.
Proof.
  destruct vm as [limit depth]. unfold to_json, dumps, loads, deeper.
  cbn [int_max_str_digits recursion_depth]. rewrite iterencode_tuple.
  rewrite mapR_bind.
  - by destruct (mapR (iterencode limit set_default depth) xs).
  - apply Forall_forall. intros x _ j. apply scan_encoded.
Qed.

Lemma to_json_dict vm items :
  to_json (deeper vm) (PDict items) =
  dict_of <$> mapR (λ kv : pykey * pyval,
                      key ← encode_key (int_max_str_digits vm) kv.1;
                      v ← to_json vm kv.2;
                      Ok (key, v)) items.
Proof.
  destruct vm as [limit depth]. unfold to_json, dumps, loads, deeper.
  cbn [int_max_str_digits recursion_depth]. rewrite iterencode_dict.
  rewrite (mapR_ext _
    (λ kv, (key ← encode_key limit kv.1;
            j ← iterencode limit set_default depth kv.2;
            Ok (key, j)) ≫=
           (λ m : string * json, v ← scan limit depth m.2; Ok (m.1, v)))).
  - rewrite mapR_bind.
    + by destruct (mapR _ items).
    + apply Forall_forall. intros kv _ [key j].
      destruct (encode_key limit kv.1) as [key'|]; [|done]. simpl.
      destruct (iterencode limit set_default depth kv.2) as [j'|] eqn:Hj;
        [|done].
      intros [= <- <-]. destruct (scan_encoded _ _ _ _ _ Hj) as [r Hr].
      exists (key', r). simpl. by rewrite Hr.
  - apply Forall_forall. intros kv _.
    destruct (encode_key limit kv.1) as [key|]; [|done]. simpl.
    by destruct (iterencode limit set_default depth kv.2).
Qed.

Lemma interpreter_cases vm :
  recursion_depth vm = 0 ∨ ∃ vm', vm = deeper vm'.
Proof.
  destruct vm as [limit [|depth]]; [by left | right].
  by exists (MkInterpreter limit depth).
Qed.

Lemma to_json_int vm z :
  to_json vm (PInt z) =
  if too_many_digits (int_max_str_digits vm) z
  then Raise (digits_exceeded (int_max_str_digits vm)) else Ok (PInt z).
Proof.
  destruct vm as [limit depth]. unfold to_json, dumps, loads.
  cbn [int_max_str_digits recursion_depth].
  assert (iterencode limit set_default depth (PInt z) =
          (_ ← int_repr limit z; Ok (JInt z))) as -> by (by destruct depth).
  unfold int_repr. destruct (too_many_digits limit z) eqn:Hz; [done|].
  simpl. unfold int_parse. by rewrite Hz.
Qed.

Lemma to_json_scalar vm v :
  match v with
  | PNone | PBool _ | PFloat _ | PStr _ => True
  | _ => False
  end → to_json vm v = Ok v.
Proof.
  destruct vm as [limit depth]. unfold to_json, dumps, loads.
  by destruct v, depth.
Qed.

(** An object given to [set_default] is written as the value that
    [set_default] returns for it, one nested call deeper. *)
Lemma to_json_foreign vm obj :
  to_json (deeper vm) (PForeign obj) = set_default obj ≫= to_json vm.
Proof.
  destruct vm as [limit depth]. unfold to_json, dumps, loads, deeper.
  cbn [int_max_str_digits recursion_depth]. rewrite iterencode_foreign.
  destruct (set_default obj) as [o'|]; [|done]. simpl.
  destruct (iterencode limit set_default depth o') as [j|] eqn:Hj; [|done].
  simpl. destruct (scan_encoded _ _ _ _ _ Hj) as [r Hr].
  by rewrite Hr, (scan_mono _ _ _ _ Hr).
Qed.

Lemma to_json_iter vm c xs :
  to_json (deeper (deeper vm)) (PForeign (FIter c (Ok xs))) =
  PList <$> mapR (to_json vm) xs.
Proof. by rewrite to_json_foreign, <- to_json_list. Qed.

Lemma to_json_obj vm cls r :
  to_json (deeper vm) (PForeign (FObj cls r)) =
  match r with
  | StrOk s => Ok (PStr s)
  | StrRaises e => if exc_is_Exception e then Raise TypeError_bare else Raise e
  end.
Proof.
  rewrite to_json_foreign.
  destruct r as [s|e]; [by apply (to_json_scalar vm (PStr s))|].
  simpl. by destruct (exc_is_Exception e).
Qed.

(** With no nested call left, only scalars are written. *)
Lemma to_json_exhausted vm v :
  recursion_depth vm = 0 →
  to_json vm v =
  match v with
  | PInt z => PInt <$> (int_repr (int_max_str_digits vm) z ≫= λ _, Ok z)
  | PList _ | PTuple _ | PDict _ | PBackRef _ =>
      Raise (RecursionError encoding)
  | PForeign obj => set_default obj ≫= λ _, Raise (RecursionError encoding)
  | _ => Ok v
  end.
Proof.
  destruct vm as [limit depth]. simpl. intros ->.
  unfold to_json, dumps, loads. cbn [int_max_str_digits recursion_depth].
  destruct v as [ | b | z | f | s | xs | xs | items | obj | k]; try done.
  - cbn [iterencode]. destruct (int_repr limit z) as [s|] eqn:Hz; [|done].
    simpl. by rewrite (int_repr_parse _ _ _ Hz).
  - cbn [iterencode]. by destruct (set_default obj).
Qed.

(** What [to_json] returns with some nested calls left, it returns
    with one more. *)
Lemma to_json_mono vm v r :
  to_json vm v = Ok r → to_json (deeper vm) v = Ok r.
Proof.
  destruct vm as [limit depth]. unfold to_json, dumps, loads, deeper.
  cbn [int_max_str_digits recursion_depth].
  destruct (iterencode limit set_default depth v) as [j|] eqn:Hj; [|done].
  cbn [mbind result_bind]. intros Hr.
  rewrite (iterencode_mono _ _ _ _ _ Hj). cbn [mbind result_bind].
  by apply scan_mono.
Qed.

(** ** Dictionaries built by the decoder *)

Lemma dict_set_keys d name v :
  (dict_set d name v).*1 =
  if decide (KStr name ∈ d.*1) then d.*1 else d.*1 ++ [KStr name].
Proof.
  induction d as [|[k x] d IH]; cbn [fmap list_fmap dict_set fst].
  - destruct (decide (KStr name ∈ [])) as [Hin|]; [by inversion Hin | done].
  - destruct (decide (k = KStr name)) as [->|Hne]; cbn [fmap list_fmap fst].
    + destruct (decide (KStr name ∈ KStr name :: d.*1)) as [|Hnin]; [done|].
      destruct Hnin. by left.
    + rewrite IH.
      destruct (decide (KStr name ∈ d.*1)) as [Hin|Hnin];
        destruct (decide (KStr name ∈ k :: d.*1)) as [Hin'|Hnin']; try done.
      * destruct Hnin'. by right.
      * inversion Hin'; subst; done.
Qed.

Lemma dict_set_values (Q : pykey * pyval → Prop) d name v :
  Forall Q d → Q (KStr name, v) → (∀ k x, Q (k, x) → Q (k, v)) →
  Forall Q (dict_set d name v).
Proof.
  intros Hd Hv Hrepl. induction Hd as [|[k x] d Hkx Hd IH]; simpl.
  - by constructor.
  - destruct (decide (k = KStr name)); constructor; eauto.
Qed.

Lemma dict_set_ok Q d name v :
  dict_ok Q d → Q v → dict_ok Q (dict_set d name v).
Proof.
  intros [Hnd Hall] Hv. split.
  - rewrite dict_set_keys. destruct (decide _) as [|Hnin]; [done|].
    apply NoDup_app. split_and!; [done | | apply NoDup_singleton].
    intros k Hk ->%list_elem_of_singleton. done.
  - apply dict_set_values; [done | simpl; eauto |].
    simpl. intros k x [Hk _]. eauto.
Qed.

Lemma foldl_dict_set_ok Q (ms : list (string * pyval)) d :
  dict_ok Q d → Forall (λ m, Q m.2) ms →
  dict_ok Q (foldl (λ d (m : string * pyval), dict_set d m.1 m.2) d ms).
Proof.
  intros Hd Hms. revert d Hd.
  induction Hms as [|m ms Hm _ IH]; intros d Hd; simpl; [done|].
  apply IH. by apply dict_set_ok.
Qed.

Lemma dict_of_ok Q (ms : list (string * pyval)) :
  Forall (λ m, Q m.2) ms → ∃ d, dict_of ms = PDict d ∧ dict_ok Q d.
Proof.
  intros Hms. eexists. split; [done|]. apply foldl_dict_set_ok; [|done].
  split; [apply NoDup_nil_2 | constructor].
Qed.

Lemma json_composed_dict ok d :
  dict_ok (λ v, json_composed ok v = true) d →
  json_composed ok (PDict d) = true.
Proof.
  intros [Hnd Hall]. simpl. apply andb_true_iff. split.
  - by apply bool_decide_eq_true.
  - apply forallb_forall. intros kv Hin%list_elem_of_In.
    rewrite Forall_forall in Hall. destruct (Hall kv Hin) as [[s ->] ->]. done.
Qed.

(** When the names are distinct the decoder rebuilds the dictionary
    member by member. *)
Lemma foldl_dict_set_distinct (ms : list (string * pyval)) d :
  NoDup (d.*1 ++ map (λ m, KStr m.1) ms) →
  foldl (λ d (m : string * pyval), dict_set d m.1 m.2) d ms =
  d ++ map (λ m, (KStr m.1, m.2)) ms.
Proof.
  revert d. induction ms as [|[name v] ms IH]; intros d Hnd; simpl.
  - by rewrite app_nil_r.
  - assert (dict_set d name v = d ++ [(KStr name, v)]) as ->.
    { apply NoDup_app in Hnd as (_ & Hdisj & _).
      assert (KStr name ∉ d.*1) as Hnin.
      { intros Hin. apply (Hdisj _ Hin). by left. }
      clear -Hnin. induction d as [|[k x] d IHd]; simpl; [done|].
      rewrite decide_False.
      - f_equal. apply IHd. intros Hin. apply Hnin. by right.
      - intros ->. apply Hnin. by left. }
    rewrite IH.
    + by rewrite <- app_assoc.
    + rewrite fmap_app. simpl. by rewrite <- app_assoc.
Qed.

(** ** Nesting and digits *)


Lemma foldr_max_bound {A} (m : A → nat) xs n :
  foldr (λ y k, m y `max` k) 0 xs ≤ n ↔ Forall (λ x, m x ≤ n) xs.
Proof.
  induction xs as [|x xs IH]; simpl.
  - split; [constructor | lia].
  - rewrite Forall_cons, <- IH. lia.
Qed.

Lemma forallb_Forall {A} (f : A → bool) xs :
  forallb f xs = true ↔ Forall (λ x, f x = true) xs.
Proof.
  rewrite forallb_forall, Forall_forall.
  split; intros H x Hx; apply H; by apply list_elem_of_In.
Qed.


Lemma within_limits_spec vm v :
  within_limits vm v = true ↔
  digits_ok (int_max_str_digits vm) v = true ∧ levels v ≤ recursion_depth vm.
Proof.
  unfold within_limits. by rewrite andb_true_iff, bool_decide_eq_true.
Qed.

Lemma Forall_and {A} (P Q : A → Prop) xs :
  Forall (λ x, P x ∧ Q x) xs ↔ Forall P xs ∧ Forall Q xs.
Proof.
  rewrite !Forall_forall. split; [|intros [HP HQ] x Hx; eauto].
  intros H. split; intros x Hx; by apply H.
Qed.

(** A list, or a tuple, is within the limits when each element is
    within the limits that hold one nested call deeper. *)
Lemma within_limits_array vm v xs :
  digits_ok (int_max_str_digits vm) v =
    forallb (digits_ok (int_max_str_digits vm)) xs →
  levels v = S (foldr (λ x n, levels x `max` n) 0 xs) →
  within_limits (deeper vm) v = true ↔
  Forall (λ x, within_limits vm x = true) xs.
Proof.
  intros Hd Hl. rewrite within_limits_spec. simpl. rewrite Hd, Hl.
  rewrite forallb_Forall, <- Nat.succ_le_mono, foldr_max_bound.
  rewrite <- Forall_and. apply Forall_proper; [|done].
  intros x. by rewrite within_limits_spec.
Qed.

Lemma within_limits_list vm xs :
  within_limits (deeper vm) (PList xs) = true ↔
  Forall (λ x, within_limits vm x = true) xs.
Proof. by apply within_limits_array. Qed.

Lemma within_limits_tuple vm xs :
  within_limits (deeper vm) (PTuple xs) = true ↔
  Forall (λ x, within_limits vm x = true) xs.
Proof. by apply within_limits_array. Qed.

Lemma within_limits_iter vm c xs :
  within_limits (deeper (deeper vm)) (PForeign (FIter c (Ok xs))) = true ↔
  Forall (λ x, within_limits vm x = true) xs.
Proof.
  rewrite <- within_limits_list, !within_limits_spec. simpl.
  split; (intros [? ?]; split; [done | lia]).
Qed.

Lemma within_limits_dict vm items :
  within_limits (deeper vm) (PDict items) = true ↔
  Forall (λ kv : pykey * pyval,
            key_fits (int_max_str_digits vm) kv.1 = true ∧
            within_limits vm kv.2 = true) items.
Proof.
  rewrite within_limits_spec. simpl.
  rewrite forallb_Forall, <- Nat.succ_le_mono.
  rewrite (foldr_max_bound (λ kv : pykey * pyval, levels kv.2)).
  rewrite <- Forall_and. apply Forall_proper; [|done].
  intros [k x]. simpl. rewrite within_limits_spec, andb_true_iff.
  unfold key_fits. tauto.
Qed.

Lemma within_limits_exhausted vm v :
  recursion_depth vm = 0 → within_limits vm v = true → levels v = 0.
Proof. rewrite within_limits_spec. lia. Qed.

(** ** What [to_json] returns and raises *)










(** ** [to_json], node by node *)

Lemma array_spec vm xs r :
  Forall (λ x, ∀ r, to_json vm x = Ok r ↔
                    encodable x = true ∧ within_limits vm x = true ∧
                    r = normalize_spec x) xs →
  PList <$> mapR (to_json vm) xs = Ok r ↔
  forallb encodable xs = true ∧
  Forall (λ x, within_limits vm x = true) xs ∧
  r = PList (map normalize_spec xs).
Proof.
  intros IH. split.
  - destruct (mapR (to_json vm) xs) as [ys|e] eqn:Hxs; simpl; [|done].
    intros [= <-]. apply mapR_Ok in Hxs.
    induction Hxs as [|x y xs ys Hxy _ IHxs]; [done|].
    inversion IH as [|? ? Hx Hrest]; subst.
    apply Hx in Hxy as (Henc & Hw & ->).
    destruct (IHxs Hrest) as (Hencs & Hws & Heq).
    simpl. rewrite Henc, Hencs. split_and!; [done | by constructor |].
    by injection Heq as ->.
  - intros (Henc & Hw & ->).
    assert (mapR (to_json vm) xs = Ok (map normalize_spec xs)) as ->; [|done].
    apply mapR_Ok. induction IH as [|x xs Hx _ IHxs]; simpl; [constructor|].
    simpl in Henc. apply andb_true_iff in Henc as [Hencx Hencs].
    inversion Hw; subst.
    constructor; [by apply Hx | by apply IHxs].
Qed.

Lemma encode_key_Ok limit k s :
  encode_key limit k = Ok s ↔
  match k with KOther _ => false | _ => true end = true ∧
  key_fits limit k = true ∧ s = key_string k.
Proof.
  unfold key_string.
  destruct k as [s'|z|f|[]| |cls]; simpl;
    try (split; [by intros [= <-] | by intros (_ & _ & ->)]).
  - unfold int_repr. destruct (too_many_digits limit z); simpl.
    + split; [done | by intros (_ & ? & _)].
    + split; [by intros [= <-] | by intros (_ & _ & ->)].
  - split; [done | by intros (? & _)].
Qed.

Lemma dict_spec vm items r :
  Forall (λ kv : pykey * pyval,
            ∀ r, to_json vm kv.2 = Ok r ↔
                 encodable kv.2 = true ∧ within_limits vm kv.2 = true ∧
                 r = normalize_spec kv.2) items →
  dict_of <$> mapR (λ kv : pykey * pyval,
                      key ← encode_key (int_max_str_digits vm) kv.1;
                      v ← to_json vm kv.2;
                      Ok (key, v)) items = Ok r ↔
  forallb (λ kv : pykey * pyval,
             match kv.1 with KOther _ => false | _ => true end &&
             encodable kv.2) items = true ∧
  Forall (λ kv : pykey * pyval,
            key_fits (int_max_str_digits vm) kv.1 = true ∧
            within_limits vm kv.2 = true) items ∧
  r = dict_of (map (λ kv : pykey * pyval,
                      (key_string kv.1, normalize_spec kv.2)) items).
Proof.
  intros IH. split.
  - destruct (mapR _ items) as [ms|e] eqn:Hms; cbn [fmap result_fmap];
      [|done].
    intros [= <-]. apply mapR_Ok in Hms.
    assert (forallb (λ kv : pykey * pyval,
                       match kv.1 with KOther _ => false | _ => true end &&
                       encodable kv.2) items = true ∧
            Forall (λ kv : pykey * pyval,
                      key_fits (int_max_str_digits vm) kv.1 = true ∧
                      within_limits vm kv.2 = true) items ∧
            ms = map (λ kv : pykey * pyval,
                        (key_string kv.1, normalize_spec kv.2)) items)
      as (Henc & Hw & ->); [|done].
    induction Hms as [|kv m items ms Hkv _ IHms]; [done|].
    inversion IH as [|? ? Hx Hrest]; subst.
    destruct (IHms Hrest) as (Hencs & Hws & ->).
    destruct (encode_key _ kv.1) as [key|] eqn:Hkey; simpl in Hkv; [|done].
    destruct (to_json vm kv.2) as [y|] eqn:Hy; simpl in Hkv; [|done].
    injection Hkv as <-.
    apply encode_key_Ok in Hkey as (Hk & Hfit & ->).
    destruct (proj1 (Hx y) eq_refl) as (Hv & Hwv & ->).
    simpl. rewrite Hk, Hv, Hencs. split_and!; [done | by constructor | done].
  - intros (Henc & Hw & ->).
    assert (mapR (λ kv : pykey * pyval,
                    key ← encode_key (int_max_str_digits vm) kv.1;
                    v ← to_json vm kv.2; Ok (key, v)) items
            = Ok (map (λ kv : pykey * pyval,
                         (key_string kv.1, normalize_spec kv.2)) items))
      as ->; [|done].
    apply mapR_Ok.
    induction IH as [|kv items Hx _ IHitems]; simpl; [constructor|].
    simpl in Henc. apply andb_true_iff in Henc as [Hkv Hencs].
    apply andb_true_iff in Hkv as [Hk Hv].
    inversion Hw as [|? ? [Hfit Hwv] Hws]; subst.
    constructor; [|by apply IHitems].
    rewrite (proj2 (encode_key_Ok _ _ _) (conj Hk (conj Hfit eq_refl))).
    simpl. by rewrite (proj2 (Hx _) (conj Hv (conj Hwv eq_refl))).
Qed.

(** [to_json] succeeds exactly on the values in which no node fails
    and that are within the limits of the interpreter, and then it
    returns the value described by [normalize_spec]. *)
Lemma to_json_spec (v : pyval) :
  ∀ vm r, to_json vm v = Ok r ↔
          encodable v = true ∧ within_limits vm v = true ∧
          r = normalize_spec v.
Proof.
  induction v as [ | | z | | | xs IH | xs IH | items IH | c xs IH | c e0
                   | cls s | k ] using pyval_ind'; intros vm r;
    try (rewrite to_json_scalar by done; rewrite within_limits_spec;
         simpl; split; [intros [= <-]; split_and!; (done || lia)
                       | by intros (_ & _ & ->)]).
  - rewrite to_json_int, within_limits_spec. simpl.
    destruct (too_many_digits _ z); simpl.
    + split; [done | by intros (_ & [? _] & _)].
    + split; [intros [= <-]; split_and!; [done | done | lia | done]
             | by intros (_ & _ & ->)].
  - destruct (interpreter_cases vm) as [H0 | [vm' ->]].
    { rewrite to_json_exhausted by done. split; [done|].
      intros (_ & Hw & _). by apply within_limits_exhausted in Hw. }
    rewrite to_json_list, within_limits_list. apply array_spec.
    eapply Forall_impl; [exact IH|]. intros x Hx. apply Hx.
  - destruct (interpreter_cases vm) as [H0 | [vm' ->]].
    { rewrite to_json_exhausted by done. split; [done|].
      intros (_ & Hw & _). by apply within_limits_exhausted in Hw. }
    rewrite to_json_tuple, within_limits_tuple. apply array_spec.
    eapply Forall_impl; [exact IH|]. intros x Hx. apply Hx.
  - destruct (interpreter_cases vm) as [H0 | [vm' ->]].
    { rewrite to_json_exhausted by done. split; [done|].
      intros (_ & Hw & _). by apply within_limits_exhausted in Hw. }
    rewrite to_json_dict, within_limits_dict. apply dict_spec.
    eapply Forall_impl; [exact IH|]. intros x Hx. apply Hx.
  - destruct (interpreter_cases vm) as [H0 | [vm' ->]].
    { rewrite to_json_exhausted by done. split; [done|].
      intros (_ & Hw & _). by apply within_limits_exhausted in Hw. }
    destruct (interpreter_cases vm') as [H0 | [vm'' ->]].
    { rewrite to_json_foreign. simpl. rewrite to_json_exhausted by done.
      split; [done|]. intros (_ & Hw & _).
      apply within_limits_spec in Hw as [_ Hw]. simpl in Hw. lia. }
    rewrite to_json_iter, within_limits_iter. apply array_spec.
    eapply Forall_impl; [exact IH|]. intros x Hx. apply Hx.
  - split; [|by intros (? & _)].
    destruct (interpreter_cases vm) as [H0 | [vm' ->]].
    + by rewrite to_json_exhausted.
    + by rewrite to_json_foreign.
  - destruct (interpreter_cases vm) as [H0 | [vm' ->]].
    + rewrite to_json_exhausted by done. split.
      * destruct s as [s|e]; simpl; [done|]. by destruct (exc_is_Exception e).
      * intros (_ & Hw & _). by apply within_limits_exhausted in Hw.
    + rewrite to_json_obj, within_limits_spec. destruct s as [s|e]; simpl.
      * split; [intros [= <-]; split_and!; [done | done | lia | done]
               | by intros (_ & _ & ->)].
      * split; [by destruct (exc_is_Exception e) | by intros (? & _)].
  - split; [|by intros (? & _)].
    destruct (interpreter_cases vm) as [H0 | [vm' ->]].
    + by rewrite to_json_exhausted.
    + by destruct vm'.
Qed.

(** ** [to_json] on values that are JSON already *)

Lemma json_composed_encodable ok (v : pyval) :
  json_composed ok v = true → encodable v = true ∧ normalize_spec v = v.
Proof.
  induction v as [ | | z | | | xs IH | xs IH | items IH | c xs IH | c e0
                   | cls s | k ] using pyval_ind'; intros Hv; try done.
  - simpl in Hv. apply forallb_Forall in Hv.
    assert (Forall (λ x, encodable x = true ∧ normalize_spec x = x) xs)
      as Hxs.
    { apply Forall_forall. intros x Hx. rewrite Forall_forall in IH, Hv.
      by apply IH, Hv. }
    apply Forall_and in Hxs as [Henc Hnorm]. split.
    + by apply forallb_Forall.
    + simpl. f_equal. clear -Hnorm.
      induction Hnorm as [|x xs Hx _ IHxs]; simpl; [done|].
      by rewrite Hx, IHxs.
  - simpl in Hv. apply andb_true_iff in Hv as [Hnd Hall].
    apply bool_decide_eq_true in Hnd. apply forallb_Forall in Hall.
    assert (Forall (λ kv : pykey * pyval,
                      (∃ s, kv.1 = KStr s) ∧ encodable kv.2 = true ∧
                      normalize_spec kv.2 = kv.2) items) as Hitems.
    { rewrite Forall_forall in IH, Hall |- *. intros [key x] Hin.
      specialize (Hall _ Hin). simpl in Hall.
      apply andb_true_iff in Hall as [Hk Hx].
      split; [destruct key; try done; eauto | by apply (IH _ Hin)]. }
    split.
    + apply forallb_Forall. eapply Forall_impl; [exact Hitems|].
      intros [key x] ([s Hs] & Hx & _). simpl in Hs, Hx |- *. subst key.
      exact Hx.
    + assert (map (λ m : string * pyval, (KStr m.1, m.2))
                  (map (λ kv : pykey * pyval,
                          (key_string kv.1, normalize_spec kv.2)) items)
              = items) as Hback.
      { clear -Hitems.
        induction Hitems as [|[key x] items ([s Hs] & _ & Hx) _ IHitems];
          [done|].
        simpl in Hs, Hx |- *. subst key. by rewrite Hx, IHitems. }
      assert (map (λ m : string * pyval, KStr m.1)
                  (map (λ kv : pykey * pyval,
                          (key_string kv.1, normalize_spec kv.2)) items)
              = items.*1) as Hkeys.
      { rewrite <- Hback at 2. by rewrite <- !list_fmap_compose. }
      cbn [normalize_spec]. unfold dict_of. f_equal.
      rewrite foldl_dict_set_distinct; [by rewrite Hback|].
      simpl. by rewrite Hkeys.
Qed.

(** A value made of JSON types is returned as it is, within the
    limits of the interpreter, and only there. *)
Lemma to_json_fixes_json ok vm (v : pyval) :
  json_composed ok v = true →
  (to_json vm v = Ok v ↔ within_limits vm v = true) ∧
  (∀ r, to_json vm v = Ok r → r = v).
Proof.
  intros [Henc Hnorm]%json_composed_encodable. split.
  - rewrite to_json_spec, Hnorm. tauto.
  - intros r (_ & _ & ->)%to_json_spec. exact Hnorm.
Qed.




(** ** What [normalize_spec] returns *)

Lemma normalize_spec_composed (v : pyval) :
  encodable v = true → json_composed any_float (normalize_spec v) = true.
Proof.
  induction v as [ | | z | | | xs IH | xs IH | items IH | c xs IH | c e0
                   | cls r | k ] using pyval_ind'; intros Hv; try done.
  - simpl in Hv |- *. rewrite forallb_forall in Hv.
    apply forallb_forall. intros y (x & <- & Hx)%in_map_iff.
    rewrite Forall_forall in IH. apply IH; [by apply list_elem_of_In | auto].
  - simpl in Hv |- *. rewrite forallb_forall in Hv.
    apply forallb_forall. intros y (x & <- & Hx)%in_map_iff.
    rewrite Forall_forall in IH. apply IH; [by apply list_elem_of_In | auto].
  - cbn [normalize_spec].
    destruct (dict_of_ok (λ v, json_composed any_float v = true)
                (map (λ kv : pykey * pyval,
                        (key_string kv.1, normalize_spec kv.2)) items))
      as (d & -> & Hd); [|by apply json_composed_dict].
    simpl in Hv. rewrite forallb_forall in Hv.
    apply Forall_forall. intros m (kv & <- & Hkv)%list_elem_of_In%in_map_iff.
    simpl. rewrite Forall_forall in IH.
    apply IH; [by apply list_elem_of_In|].
    specialize (Hv kv Hkv). by apply andb_true_iff in Hv as [_ ?].
  - simpl in Hv |- *. rewrite forallb_forall in Hv.
    apply forallb_forall. intros y (x & <- & Hx)%in_map_iff.
    rewrite Forall_forall in IH. apply IH; [by apply list_elem_of_In | auto].
  - by destruct r.
Qed.

Lemma within_limits_deeper vm v :
  within_limits vm v = true → within_limits (deeper vm) v = true.
Proof. rewrite !within_limits_spec. simpl. intros [? ?]. split; [done|lia]. Qed.

(** Normalizing keeps a value within the limits. *)
Lemma normalize_spec_within (v : pyval) :
  ∀ vm, within_limits vm v = true →
        within_limits vm (normalize_spec v) = true.
Proof.
  induction v as [ | | z | | | xs IH | xs IH | items IH | c xs IH | c e0
                   | cls r | k ] using pyval_ind'; intros vm Hv; try done.
  - destruct (interpreter_cases vm) as [H0 | [vm' ->]];
      [by apply within_limits_exhausted in Hv|].
    apply within_limits_list in Hv. apply within_limits_list.
    apply Forall_fmap. rewrite Forall_forall in IH, Hv |- *.
    intros x Hx. by apply IH, Hv.
  - destruct (interpreter_cases vm) as [H0 | [vm' ->]];
      [by apply within_limits_exhausted in Hv|].
    apply within_limits_tuple in Hv. apply within_limits_list.
    apply Forall_fmap. rewrite Forall_forall in IH, Hv |- *.
    intros x Hx. by apply IH, Hv.
  - destruct (interpreter_cases vm) as [H0 | [vm' ->]];
      [by apply within_limits_exhausted in Hv|].
    apply within_limits_dict in Hv. cbn [normalize_spec].
    destruct (dict_of_ok (λ v, within_limits vm' v = true)
                (map (λ kv : pykey * pyval,
                        (key_string kv.1, normalize_spec kv.2)) items))
      as (d & -> & _ & Hd).
    + apply Forall_fmap. rewrite Forall_forall in IH, Hv |- *.
      intros kv Hkv. simpl. apply (IH kv Hkv), (Hv kv Hkv).
    + apply within_limits_dict. eapply Forall_impl; [exact Hd|].
      intros [key x] [[s Hs] Hx]. simpl in Hs |- *. by subst key.
  - destruct (interpreter_cases vm) as [H0 | [vm' ->]];
      [by apply within_limits_exhausted in Hv|].
    destruct (interpreter_cases vm') as [H0 | [vm'' ->]].
    { apply within_limits_spec in Hv as [_ Hv]. simpl in Hv. lia. }
    apply within_limits_iter in Hv.
    apply within_limits_deeper, within_limits_list.
    apply Forall_fmap. rewrite Forall_forall in IH, Hv |- *.
    intros x Hx. by apply IH, Hv.
  - destruct r as [s|e]; [|done].
    apply within_limits_spec. simpl. split; [done | lia].
Qed.

(** ** The context manager *)

Lemma NewEnv_exit_eq self w :
  NewEnv_exit self w =
  ((cleanup w).1,
   MkWorld (orig_environ self) (cleanup w).2 (scandir_error w)).
Proof.
  unfold NewEnv_exit. destruct (cleanup w) as [r remaining].
  simpl. unfold env_update, env_clear. by rewrite (right_id ∅ (∪)).
Qed.

Lemma NewEnv_exit_environ self w :
  environ (NewEnv_exit self w).2 = orig_environ self.
Proof. by rewrite NewEnv_exit_eq. Qed.

Lemma cleanup_entered w : cleanup (entered w) = cleanup w.
Proof. done. Qed.

(** [with NewEnv(): body] runs [body] in the entered state, then
    [__exit__]; the result is that of [body] unless [__exit__]
    raises. *)
Lemma with_NewEnv_eq {A} (body : py A) w :
  with_NewEnv body w =
  (match (cleanup (body (entered w)).2).1 with
   | Ok _ => (body (entered w)).1
   | Raise e => Raise e
   end,
   MkWorld (environ w) (cleanup (body (entered w)).2).2
           (scandir_error (body (entered w)).2)).
Proof.
  unfold with_NewEnv, entered. simpl.
  destruct (body _) as [r w2]. rewrite NewEnv_exit_eq. simpl.
  by destruct (cleanup w2) as [[[]|e] remaining].
Qed.

(** An exception of the loop in [__exit__] is an [OSError] of
    [os.remove] or of [is_file()]: it derives from [Exception] and
    prints as text. *)
Lemma scandir_loop_Raise items e :
  (scandir_loop items).1 = Raise e → ∃ cls msg, e = error cls msg.
Proof.
  induction items as [|[name n] items IH]; simpl; [done|].
  destruct n as [locked | locked children | locked | locked | locked cls msg].
  - destruct locked; simpl; [intros [= <-]; by eexists _, _ | done].
  - destruct (scandir_loop items) as [r remaining]. by destruct (rmtree _).
  - by destruct (scandir_loop items) as [r remaining].
  - by destruct (scandir_loop items) as [r remaining].
  - intros [= <-]. by eexists _, _.
Qed.

Lemma cleanup_Raise w e :
  (cleanup w).1 = Raise e → ∃ cls msg, e = error cls msg.
Proof.
  unfold cleanup. destruct (scandir_error w) as [[cls msg]|].
  - intros [= <-]. by eexists _, _.
  - apply scandir_loop_Raise.
Qed.



(** ** The handler, path by path *)

Section handler_paths.
Context (ext : externals) (event : gmap string pyval).
Context (context : lambda_context).

Lemma report_eq e w :
  report context e w =
  (match exc_str e with
   | StrOk msg =>
       Ok (failure_response msg (exc_type e) (aws_request_id context))
   | StrRaises e' => Raise e'
   end, w).
Proof. unfold report, mbind, py_bind, lift. by destruct (exc_str e). Qed.

Lemma handler_eq w :
  handler ext event context w =
  match with_NewEnv (run ext event) w with
  | (Ok r, w') => (Ok r, w')
  | (Raise e, w') =>
      if exc_is_Exception e then report context e w' else (Raise e, w')
  end.
Proof. done. Qed.

(** The handler's result when the block raises [e] and [__exit__]
    raises nothing. *)
Lemma handler_block_raises w e w2 :
  run ext event (entered w) = (Raise e, w2) →
  (cleanup w2).1 = Ok () →
  (handler ext event context w).1 =
  if exc_is_Exception e then
    match exc_str e with
    | StrOk msg =>
        Ok (failure_response msg (exc_type e) (aws_request_id context))
    | StrRaises e' => Raise e'
    end
  else Raise e.
Proof.
  intros Hrun Hexit. rewrite handler_eq, with_NewEnv_eq, Hrun. simpl.
  rewrite Hexit. destruct (exc_is_Exception e); [|done].
  by rewrite report_eq.
Qed.

(** The handler's result when [__exit__] raises. *)
Lemma handler_exit_raises w e :
  (cleanup (run ext event (entered w)).2).1 = Raise e →
  ∃ cls msg, e = error cls msg ∧
             (handler ext event context w).1 =
             Ok (failure_response msg cls (aws_request_id context)).
Proof.
  intros Hexit. destruct (cleanup_Raise _ _ Hexit) as (cls & msg & ->).
  exists cls, msg. split; [done|].
  by rewrite handler_eq, with_NewEnv_eq, Hexit.
Qed.

(** The handler's result when the block raises an exception that
    derives from [Exception] and prints as text, whatever [__exit__]
    does. *)
Lemma handler_block_raises_printable w cls msg w2 :
  run ext event (entered w) = (Raise (error cls msg), w2) →
  ∃ msg' cls',
    (handler ext event context w).1 =
    Ok (failure_response msg' cls' (aws_request_id context)).
Proof.
  intros Hrun. destruct (cleanup w2).1 as [[]|e'] eqn:Hexit.
  - exists msg, cls. by rewrite (handler_block_raises _ _ _ Hrun Hexit).
  - destruct (handler_exit_raises w e') as (cls' & msg' & _ & H).
    { by rewrite Hrun. }
    by exists msg', cls'.
Qed.

Lemma handler_block_returns w r w2 :
  run ext event (entered w) = (Ok r, w2) →
  (cleanup w2).1 = Ok () →
  (handler ext event context w).1 = Ok r.
Proof.
  intros Hrun Hexit. rewrite handler_eq, with_NewEnv_eq, Hrun. simpl.
  by rewrite Hexit.
Qed.

Lemma run_no_inputs w :
  event !! "inputs" = None →
  run ext event w = (Raise (KeyError "inputs"), w).
Proof. intros H. unfold run, getitem, mbind, py_bind, lift. by rewrite H. Qed.

Lemma run_no_url w inputs :
  event !! "inputs" = Some inputs → event !! "url" = None →
  run ext event w = (Raise (KeyError "url"), w).
Proof.
  intros H1 H2. unfold run, getitem, mbind, py_bind, lift. by rewrite H1, H2.
Qed.


(** The block once the response is there. *)
Lemma run_fetched w inputs url resp :
  event !! "inputs" = Some inputs → event !! "url" = Some url →
  http_request ext url (headers_of ext event) = Fetched resp →
  run ext event w =
  match data_decode resp with
  | Undecodable reason => (Raise (UnicodeDecodeError reason), w)
  | Decoded code =>
      if bool_decide (status resp = 200%Z) then
        match exec ext code w with
        | (Raise e, w2) => (Raise e, w2)
        | (Ok None, w2) =>
            (Raise (AssertionError "'def main(inputs):' is not defined"), w2)
        | (Ok (Some main), w2) =>
            match main inputs w2 with
            | (Raise e, w3) => (Raise e, w3)
            | (Ok outputs, w3) =>
                (success_response <$> to_json (python ext) outputs, w3)
            end
        end
      else
        (Raise (AssertionError
                  ("Failed to fetch app code: " +:+ code +:+ newline)), w)
  end.
Proof.
  intros H1 H2 H3.
  unfold run, getitem, py_assert, mbind, py_bind, lift.
  rewrite H1, H2, H3. destruct (data_decode resp) as [code|reason]; [|done].
  destruct (bool_decide (status resp = 200%Z)); [|done].
  destruct (exec ext code w) as [[[main|]|e] w2]; try done.
  unfold bool_decide, decide_rel; simpl.
  destruct (main inputs w2) as [[outputs|e] w3]; [|done].
  by destruct (to_json (python ext) outputs).
Qed.

Lemma run_Ok w r w' :
  run ext event w = (Ok r, w') → ∃ body, r = success_response body.
Proof.
  unfold run, getitem, py_assert, mbind, py_bind, lift.
  destruct (event !! "inputs") as [inputs|]; [|done].
  destruct (event !! "url") as [url|]; [|done].
  destruct (http_request ext url _) as [resp|cls msg]; [|done].
  destruct (data_decode resp) as [code|reason]; [|done].
  destruct (bool_decide (status resp = 200%Z)); [|done].
  destruct (exec ext code w) as [[[main|]|e] w2]; try done.
  unfold bool_decide, decide_rel; simpl.
  destruct (main inputs w2) as [[outputs|e] w3]; [|done].
  destruct (to_json (python ext) outputs) as [body|e]; [|done].
  intros [= <- _]. by exists body.
Qed.

(** The block once the script's [main] is called. *)
Lemma run_main w inputs url resp code main w2 :
  event !! "inputs" = Some inputs → event !! "url" = Some url →
  http_request ext url (headers_of ext event) = Fetched resp →
  status resp = 200%Z →
  data_decode resp = Decoded code →
  exec ext code w = (Ok (Some main), w2) →
  run ext event w =
  match main inputs w2 with
  | (Raise e, w3) => (Raise e, w3)
  | (Ok outputs, w3) =>
      (success_response <$> to_json (python ext) outputs, w3)
  end.
Proof.
  intros Hin Hurl Hfetch Hstatus Hcode Hexec.
  rewrite (run_fetched _ _ _ _ Hin Hurl Hfetch), Hcode, Hexec.
  by rewrite bool_decide_eq_true_2.
Qed.


(** The state after a call, on every path. *)
Lemma handler_state w :
  (handler ext event context w).2 =
  MkWorld (environ w) (cleanup (run ext event (entered w)).2).2
          (scandir_error (run ext event (entered w)).2).
Proof.
  rewrite handler_eq, with_NewEnv_eq.
  destruct (cleanup (run ext event (entered w)).2).1 as [[]|e'] eqn:Hexit;
    destruct (run ext event (entered w)).1 as [r|e]; simpl; try done.
  - destruct (exc_is_Exception e); [|done]. by rewrite report_eq.
  - destruct (cleanup_Raise _ _ Hexit) as (cls & msg & ->). done.
  - destruct (cleanup_Raise _ _ Hexit) as (cls & msg & ->). done.
Qed.

End handler_paths.

(** ** Text lemmas *)

(** Case analysis on [x ∈ [a; b; ...]]. *)
Ltac each_member H :=
  repeat (apply elem_of_cons in H as [->|H]);
  [..|by apply not_elem_of_nil in H].

Lemma prefix_spec sub s :
  String.prefix sub s = true ↔ ∃ post, s = sub +:+ post.
Proof.
  revert s. induction sub as [|c sub IH]; intros s; simpl.
  - split; [intros _; by exists s | by destruct s].
  - destruct s as [|c' s]; simpl.
    + split; [done | by intros [post ?]].
    + destruct (Ascii.ascii_dec c c') as [->|Hne].
      * rewrite IH. split; intros [post Hpost]; exists post.
        -- simpl. by rewrite Hpost.
        -- simpl in Hpost. by injection Hpost.
      * split; [done|]. intros [post Hpost]. simpl in Hpost.
        injection Hpost as Hc _. by symmetry in Hc.
Qed.

Lemma contains_spec sub s : contains sub s = true ↔ occurs_in sub s.
Proof.
  unfold occurs_in. induction s as [|c s IH]; cbn [contains].
  - rewrite orb_false_r, prefix_spec. split.
    + intros [post Hpost]. by exists "", post.
    + intros ([|? ?] & post & Hpost); [by exists post | done].
  - rewrite orb_true_iff, prefix_spec, IH. split.
    + intros [[post Hpost] | (pre & post & Hpost)].
      * by exists "", post.
      * exists (String c pre), post. simpl. by rewrite Hpost.
    + intros ([|c' pre] & post & Hpost).
      * left. by exists post.
      * right. injection Hpost as -> Hs. by exists pre, post.
Qed.

Lemma append_cons c (a b : string) : String c a +:+ b = String c (a +:+ b).
Proof. done. Qed.

Lemma append_nil_l (s : string) : "" +:+ s = s.
Proof. done. Qed.

Lemma append_assoc (a b c : string) : (a +:+ b) +:+ c = a +:+ (b +:+ c).
Proof.
  induction a as [|x a IH]; [done|]. by rewrite !append_cons, IH.
Qed.

Lemma ascii_upper_app a b :
  ascii_upper (a +:+ b) = ascii_upper a +:+ ascii_upper b.
Proof. induction a as [|c a IH]; simpl; [done | by rewrite IH]. Qed.

Lemma ascii_upper_split s a b :
  ascii_upper s = a +:+ b →
  ∃ a' b', s = a' +:+ b' ∧ ascii_upper a' = a ∧ ascii_upper b' = b.
Proof.
  revert s. induction a as [|c a IH]; intros s Hs; simpl in Hs.
  - by exists "", s.
  - destruct s as [|c' s]; [done|]. simpl in Hs. injection Hs as Hc Hs.
    destruct (IH s Hs) as (a' & b' & -> & Ha & Hb).
    exists (String c' a'), b'. simpl. by rewrite Hc, Ha.
Qed.

(** A character has the upper-case image of a letter of the patterns
    exactly when it is that letter in one of its two cases. *)
Lemma upper_char_letter (p c : ascii) :
  p ∈ ["a"; "w"; "s"; "k"; "e"; "y"]%char →
  upper_char c = upper_char p ↔ c = lower_char p ∨ c = upper_char p.
Proof.
  intros Hp.
  assert (bool_decide (upper_char c = upper_char p) =
          bool_decide (c = lower_char p) || bool_decide (c = upper_char p))
    as Hb.
  { each_member Hp; by destruct c as [[] [] [] [] [] [] [] []]. }
  rewrite <- (bool_decide_spec (upper_char c = upper_char p)), Hb.
  rewrite orb_True, !bool_decide_spec. done.
Qed.

Lemma ascii_upper_case_variant pat sub :
  pat ∈ ["aws"; "key"] →
  ascii_upper sub = ascii_upper pat ↔ case_variant pat sub.
Proof.
  intros Hpat. each_member Hpat.
  - destruct sub as [|c1 [|c2 [|c3 [|c4 sub]]]]; simpl;
      try (split; [done|tauto]).
    rewrite <- !upper_char_letter by (repeat constructor).
    split; [intros [= -> -> ->]; done | intros (-> & -> & -> & _); done].
  - destruct sub as [|c1 [|c2 [|c3 [|c4 sub]]]]; simpl;
      try (split; [done|tauto]).
    rewrite <- !upper_char_letter by (repeat constructor).
    split; [intros [= -> -> ->]; done | intros (-> & -> & -> & _); done].
Qed.

Lemma contains_ascii_upper pat key :
  pat ∈ ["aws"; "key"] →
  contains (ascii_upper pat) (ascii_upper key) = true ↔
  ∃ sub, case_variant pat sub ∧ occurs_in sub key.
Proof.
  intros Hpat. rewrite contains_spec. split.
  - intros (pre & post & Hkey).
    apply ascii_upper_split in Hkey as (pre' & rest & -> & _ & Hrest).
    apply ascii_upper_split in Hrest as (sub & post' & -> & Hsub & _).
    exists sub. split; [by apply ascii_upper_case_variant
                       | by exists pre', post'].
  - intros (sub & Hvar & pre & post & ->).
    apply ascii_upper_case_variant in Hvar; [|done].
    exists (ascii_upper pre), (ascii_upper post).
    by rewrite !ascii_upper_app, Hvar.
Qed.

(** The wording of the filter, decided on the ASCII upper case of the
    key. *)
Lemma names_secret_spec key :
  names_secret key ↔
  contains "AWS" (ascii_upper key) = true ∨
  contains "KEY" (ascii_upper key) = true.
Proof.
  unfold names_secret.
  change "AWS" with (ascii_upper "aws"). change "KEY" with (ascii_upper "key").
  rewrite !contains_ascii_upper by (repeat constructor). split.
  - intros (pat & sub & Hpat & ? & ?).
    each_member Hpat; [left | right]; by exists sub.
  - intros [(sub & ? & ?) | (sub & ? & ?)].
    + exists "aws", sub. split_and!; [repeat constructor | done | done].
    + exists "key", sub. split_and!; [repeat constructor | done | done].
Qed.

(** *** [str.upper] *)

Lemma upper_of_two_Some b1 b2 img :
  upper_of_two b1 b2 = Some img → (128 ≤ b2)%N.
Proof.
  unfold upper_of_two.
  repeat match goal with
         | |- context [if ?b then _ else _] =>
             let H := fresh in
             destruct b eqn:H;
             [apply andb_true_iff in H as [_ ->%N.eqb_eq]; lia|]
         end.
  done.
Qed.

Lemma upper_of_three_Some b1 b2 b3 img :
  upper_of_three b1 b2 b3 = Some img → (128 ≤ b2)%N ∧ (128 ≤ b3)%N.
Proof.
  unfold upper_of_three.
  destruct ((b1 =? 225)%N && (b2 =? 186)%N) eqn:H1.
  { apply andb_true_iff in H1 as [_ ->%N.eqb_eq].
    repeat match goal with
           | |- context [if ?b then _ else _] =>
               let H := fresh in
               destruct b eqn:H; [apply N.eqb_eq in H as ->; lia|]
           end.
    done. }
  destruct ((b1 =? 239)%N && (b2 =? 172)%N) eqn:H2; [|done].
  apply andb_true_iff in H2 as [_ ->%N.eqb_eq].
  repeat match goal with
         | |- context [if ?b then _ else _] =>
             let H := fresh in
             destruct b eqn:H; [apply N.eqb_eq in H as ->; lia|]
         end.
  done.
Qed.

Lemma upper_of_two_ascii b1 b2 :
  (b1 < 128)%N → upper_of_two b1 b2 = None.
Proof.
  intros Hb. unfold upper_of_two.
  repeat match goal with
         | |- context [(b1 =? ?n)%N] =>
             rewrite (proj2 (N.eqb_neq b1 n)) by lia
         end.
  done.
Qed.

Lemma upper_of_three_ascii b1 b2 b3 :
  (b1 < 128)%N → upper_of_three b1 b2 b3 = None.
Proof.
  intros Hb. unfold upper_of_three.
  repeat match goal with
         | |- context [(b1 =? ?n)%N] =>
             rewrite (proj2 (N.eqb_neq b1 n)) by lia
         end.
  done.
Qed.

(** No character of the table starts with an ASCII byte. *)
Lemma special_ascii c s : is_ascii c = true → special (String c s) = None.
Proof.
  unfold is_ascii. intros Hc%N.ltb_lt.
  destruct s as [|c2 [|c3 s]]; simpl; [done | |].
  - by rewrite upper_of_two_ascii.
  - by rewrite upper_of_two_ascii, upper_of_three_ascii.
Qed.

(** The bytes that follow the first byte of a character of the table
    are not ASCII. *)
Lemma special_Some c s img k :
  special (String c s) = Some (img, k) →
  match k, s with
  | 1, String c2 _ => is_ascii c2 = false
  | 2, String c2 (String c3 _) => is_ascii c2 = false ∧ is_ascii c3 = false
  | _, _ => False
  end.
Proof.
  unfold is_ascii. destruct s as [|c2 [|c3 s]]; simpl; [done | |].
  - destruct (upper_of_two _ _) as [img'|] eqn:H2; [|done].
    intros [= <- <-]. apply upper_of_two_Some in H2. by apply N.ltb_ge.
  - destruct (upper_of_two _ _) as [img'|] eqn:H2.
    + intros [= <- <-]. apply upper_of_two_Some in H2. by apply N.ltb_ge.
    + destruct (upper_of_three _ _ _) as [img'|] eqn:H3; [|done].
      intros [= <- <-]. apply upper_of_three_Some in H3 as [? ?].
      split; by apply N.ltb_ge.
Qed.

Lemma upper_from_ascii_head c s :
  is_ascii c = true →
  upper_from 0 (String c s) = String (upper_char c) (upper_from 0 s).
Proof.
  intros Hc. cbn [upper_from]. by rewrite (special_ascii c s Hc).
Qed.

(** On ASCII text [str.upper] converts the ASCII letters and nothing
    else. *)
Lemma upper_ascii_text s : ascii_text s = true → upper s = ascii_upper s.
Proof.
  unfold upper. induction s as [|c s IH]; [done|].
  cbn [ascii_text]. intros [Hc Hs]%andb_true_iff.
  rewrite upper_from_ascii_head by done. cbn [ascii_upper].
  by rewrite IH.
Qed.

(** Where ASCII text starts inside a key, [str.upper] starts afresh. *)
Lemma upper_from_app pre :
  ∀ skip c t, skip ≤ String.length pre → is_ascii c = true →
    ∃ x, upper_from skip (pre +:+ String c t) =
         x +:+ upper_from 0 (String c t).
Proof.
  induction pre as [|p pre IH]; intros skip c t Hskip Hc.
  - simpl in Hskip. assert (skip = 0) as -> by lia. by exists "".
  - rewrite append_cons. cbn [String.length] in Hskip.
    destruct skip as [|skip].
    + cbn [upper_from].
      destruct (special (String p (pre +:+ String c t)))
        as [[img k]|] eqn:Hsp.
      * apply special_Some in Hsp.
        assert (k ≤ String.length pre) as Hk.
        { destruct k as [|[|[|k]]]; try done.
          - destruct pre as [|p1 pre]; [|simpl; lia].
            rewrite append_nil_l in Hsp. congruence.
          - destruct pre as [|p1 [|p2 pre]]; [| |simpl; lia].
            + rewrite append_nil_l in Hsp.
              destruct t; [done | destruct Hsp; congruence].
            + rewrite append_cons, append_nil_l in Hsp.
              destruct Hsp; congruence. }
        destruct (IH k c t Hk Hc) as [x Hx]. exists (img +:+ x).
        by rewrite Hx, append_assoc.
      * destruct (IH 0 c t (Nat.le_0_l _) Hc) as [x Hx].
        exists (String (upper_char p) x). by rewrite Hx.
    + cbn [upper_from]. apply IH; [lia | done].
Qed.

Lemma case_variant_ascii pat sub :
  pat ∈ ["aws"; "key"] → case_variant pat sub →
  ascii_text sub = true ∧ sub ≠ "".
Proof.
  intros Hpat. each_member Hpat;
    destruct sub as [|c1 [|c2 [|c3 [|c4 sub]]]]; simpl; try tauto;
    intros ([-> | ->] & [-> | ->] & [-> | ->] & _); done.
Qed.

Lemma upper_from_ascii_prefix sub post :
  ascii_text sub = true →
  upper_from 0 (sub +:+ post) = ascii_upper sub +:+ upper_from 0 post.
Proof.
  induction sub as [|c sub IH]; [done|].
  cbn [ascii_text]. intros [Hc Hs]%andb_true_iff.
  rewrite append_cons, upper_from_ascii_head by done.
  cbn [ascii_upper]. by rewrite append_cons, IH.
Qed.

(** A key that spells a pattern, in whatever case, has the pattern in
    its upper case. *)
Lemma contains_upper_variant pat sub key :
  pat ∈ ["aws"; "key"] → case_variant pat sub → occurs_in sub key →
  contains (ascii_upper pat) (upper key) = true.
Proof.
  intros Hpat Hvar (pre & post & ->).
  destruct (case_variant_ascii _ _ Hpat Hvar) as [Hascii Hne].
  apply (ascii_upper_case_variant _ _ Hpat) in Hvar.
  destruct sub as [|c sub]; [done|].
  pose proof Hascii as Hascii'. cbn [ascii_text] in Hascii'.
  apply andb_true_iff in Hascii' as [Hc _].
  rewrite append_cons.
  destruct (upper_from_app pre 0 c (sub +:+ post) (Nat.le_0_l _) Hc)
    as [x Hx].
  apply contains_spec. unfold upper. rewrite Hx.
  change (String c (sub +:+ post)) with (String c sub +:+ post).
  rewrite upper_from_ascii_prefix by done. rewrite Hvar.
  by exists x, (upper_from 0 post).
Qed.

(** The condition of [__enter__], on the upper case of the key. *)
Lemma kept_spec key :
  kept key = false ↔
  contains "AWS" (upper key) = true ∨ contains "KEY" (upper key) = true.
Proof.
  unfold kept, exclude_patterns. cbn [forallb].
  rewrite andb_true_r, andb_false_iff, !negb_false_iff. done.
Qed.

Lemma names_secret_not_kept key : names_secret key → kept key = false.
Proof.
  intros (pat & sub & Hpat & Hvar & Hocc). apply kept_spec.
  pose proof (contains_upper_variant _ _ _ Hpat Hvar Hocc) as H.
  each_member Hpat; [by left | by right].
Qed.

Lemma kept_ascii key :
  ascii_text key = true → kept key = false ↔ names_secret key.
Proof.
  intros Hkey. by rewrite kept_spec, names_secret_spec, upper_ascii_text.
Qed.

(** ** The environment across an invocation *)

(** C2.  Whatever the block under [with NewEnv()] does to the process
    state and however it ends (a value, an exception of any class), and
    whatever the cleanup of [__exit__] does, the environment after
    [__exit__] is the mapping captured when [NewEnv()] was built.  The
    same holds for a whole call of [handler], in particular when the
    script's [main] performs any sequence of changes of the environment
    and then returns or raises. *)
Theorem exit_restores_environ :
  (∀ self w, environ (NewEnv_exit self w).2 = orig_environ self) ∧
  (∀ A (body : py A) w, environ (with_NewEnv body w).2 = environ w) ∧
  (∀ ext event context w,
     environ (handler ext event context w).2 = environ w) ∧
  (∀ ops ending st text event context w,
     environ (handler (serving st text (defines (main_mutating ops ending)))
                      event context w).2 = environ w).
Proof.
  split_and!.
  - apply NewEnv_exit_environ.
  - intros A body w. by rewrite with_NewEnv_eq.
  - intros. by rewrite handler_state.
  - intros. by rewrite handler_state.
Qed.

Lemma entered_lookup w key :
  environ (entered w) !! key =
  if kept key then environ w !! key else None.
Proof.
  unfold entered, NewEnv_enter, NewEnv_init, env_update, env_clear.
  simpl. rewrite (right_id ∅ (∪)).
  destruct (kept key) eqn:Hkept.
  - destruct (environ w !! key) as [value|] eqn:Hkey.
    + apply map_lookup_filter_Some. split; [done|]. simpl. by rewrite Hkept.
    + apply map_lookup_filter_None. by left.
  - apply map_lookup_filter_None. right.
    intros value' _. simpl. by rewrite Hkept.
Qed.

(** C3, as amended.  For every key of the captured environment: the
    key is absent from the environment installed by [__enter__]
    exactly when its upper case, as [str.upper] computes it, contains
    "AWS" or "KEY", and otherwise it is present with its value.  A key
    that spells "aws" or "key" somewhere, in any combination of cases,
    is absent.  A key of ASCII characters that does not is present with
    its value. *)
Theorem enter_filters (w : world) (key value : string) :
  environ w !! key = Some value →
  (environ (entered w) !! key = None ↔
   occurs_in "AWS" (upper key) ∨ occurs_in "KEY" (upper key)) ∧
  (environ (entered w) !! key = None ∨
   environ (entered w) !! key = Some value) ∧
  (names_secret key → environ (entered w) !! key = None) ∧
  (ascii_text key = true → ¬ names_secret key →
   environ (entered w) !! key = Some value).
Proof.
  intros Hkey. rewrite entered_lookup, Hkey. split_and!.
  - rewrite <- !contains_spec, <- kept_spec. by destruct (kept key).
  - destruct (kept key); auto.
  - intros Hsecret. by rewrite (names_secret_not_kept _ Hsecret).
  - intros Hascii Hfree. destruct (kept key) eqn:Hkept; [done|].
    by apply (kept_ascii _ Hascii) in Hkept.
Qed.

Lemma enter_filters_witness :
  environ sample_world !! "myKey" = Some "k" ∧
  environ (entered sample_world) !! "myKey" = None ∧
  environ sample_world !! "PATH" = Some "/usr/bin" ∧
  environ (entered sample_world) !! "PATH" = Some "/usr/bin".
Proof.
  split; [reflexivity|]. split.
  - apply (proj1 (proj2 (proj2
             (enter_filters sample_world "myKey" "k" eq_refl)))).
    exists "key", "Key". split_and!; [repeat constructor | | by exists "my", ""].
    simpl. tauto.
  - split; [reflexivity|].
    apply (proj2 (proj2 (proj2
             (enter_filters sample_world "PATH" "/usr/bin" eq_refl))));
      [reflexivity|].
    intros H%names_secret_spec. vm_compute in H. by destruct H.
Defined.

(** C3, counterexample.  The key "aw" followed by a sharp s does not
    contain "aws" or "key" in any combination of cases, and yet it is
    absent from the environment installed by [__enter__]: its upper
    case is "AWSS". *)
Lemma enter_withholds_sharp_s :
  environ sharp_world !! aw_sharp_s = Some "v" ∧
  ¬ names_secret aw_sharp_s ∧
  upper aw_sharp_s = "AWSS" ∧
  environ (entered sharp_world) !! aw_sharp_s = None.
Proof.
  split_and!.
  - reflexivity.
  - intros H%names_secret_spec. vm_compute in H. by destruct H.
  - reflexivity.
  - by rewrite entered_lookup.
Qed.

(** ** Failure responses *)

(** C10.  For every event that lacks ["inputs"] or ["url"], the handler
    returns the failure response with status code 400; no exception
    reaches the host.  When [__exit__] raises nothing, the reported
    error is the [KeyError] of the first missing key. *)
Theorem missing_key_is_reported ext event context w :
  event !! "inputs" = None ∨ event !! "url" = None →
  (∃ msg ty,
     (handler ext event context w).1 =
     Ok (PDict [(KStr "statusCode", PInt 400);
                (KStr "body",
                 PDict [(KStr "errorMessage", PStr msg);
                        (KStr "errorType", PStr ty);
                        (KStr "stackTrace", PList []);
                        (KStr "requestId", PStr (aws_request_id context))])]))
  ∧
  ((cleanup w).1 = Ok () →
   (handler ext event context w).1 =
   Ok (PDict [(KStr "statusCode", PInt 400);
              (KStr "body",
               PDict [(KStr "errorMessage",
                       PStr ("'" +:+ first_missing event +:+ "'"));
                      (KStr "errorType", PStr "KeyError");
                      (KStr "stackTrace", PList []);
                      (KStr "requestId", PStr (aws_request_id context))])])).
Proof.
  intros Hmissing.
  assert (run ext event (entered w) =
          (Raise (KeyError (first_missing event)), entered w)) as Hrun.
  { unfold first_missing.
    destruct (event !! "inputs") as [inputs|] eqn:Hin.
    - destruct Hmissing as [|Hurl]; [done|]. by eapply run_no_url.
    - by apply run_no_inputs. }
  split.
  - by eapply handler_block_raises_printable.
  - intros Hexit.
    by rewrite (handler_block_raises _ _ _ _ _ _ Hrun Hexit).
Qed.

Lemma missing_key_is_reported_witness :
  (handler (serving 200 "" (mret None)) ∅ sample_context sample_world).1 =
  Ok (PDict [(KStr "statusCode", PInt 400);
             (KStr "body",
              PDict [(KStr "errorMessage",
                      PStr ("'" +:+ first_missing ∅ +:+ "'"));
                     (KStr "errorType", PStr "KeyError");
                     (KStr "stackTrace", PList []);
                     (KStr "requestId", PStr "req-1")])]).
Proof.
  assert ((∅ : gmap string pyval) !! "inputs" = None ∨
          (∅ : gmap string pyval) !! "url" = None) as Hmissing
    by (left; reflexivity).
  apply (proj2 (missing_key_is_reported (serving 200 "" (mret None)) ∅
                  sample_context sample_world Hmissing)).
  reflexivity.
Defined.

Lemma occurs_in_middle pre sub post : occurs_in sub (pre +:+ sub +:+ post).
Proof. by exists pre, post. Qed.

(** C4, as amended.  When the fetch answers a status other than 200,
    the handler returns the failure response with status code 400.
    When moreover the body decodes and [__exit__] raises nothing, the
    error type is [AssertionError] and the message is "Failed to fetch
    app code: " followed by the body and a newline: it contains the
    body; the status is not part of it. *)
Theorem fetch_failure_is_reported ext event context w inputs url resp :
  event !! "inputs" = Some inputs →
  event !! "url" = Some url →
  http_request ext url (headers_of ext event) = Fetched resp →
  status resp ≠ 200%Z →
  (∃ msg ty,
     (handler ext event context w).1 =
     Ok (PDict [(KStr "statusCode", PInt 400);
                (KStr "body",
                 PDict [(KStr "errorMessage", PStr msg);
                        (KStr "errorType", PStr ty);
                        (KStr "stackTrace", PList []);
                        (KStr "requestId", PStr (aws_request_id context))])]))
  ∧
  (∀ code, data_decode resp = Decoded code →
           (cleanup w).1 = Ok () →
     (handler ext event context w).1 =
     Ok (PDict [(KStr "statusCode", PInt 400);
                (KStr "body",
                 PDict [(KStr "errorMessage",
                         PStr ("Failed to fetch app code: " +:+ code +:+
                               newline));
                        (KStr "errorType", PStr "AssertionError");
                        (KStr "stackTrace", PList []);
                        (KStr "requestId", PStr (aws_request_id context))])])
     ∧
     contains code ("Failed to fetch app code: " +:+ code +:+ newline) = true).
Proof.
  intros Hin Hurl Hfetch Hstatus.
  pose proof (run_fetched ext event (entered w) _ _ _ Hin Hurl Hfetch) as Hrun.
  rewrite bool_decide_eq_false_2 in Hrun by done. split.
  - destruct (data_decode resp) as [code|reason];
      by eapply handler_block_raises_printable.
  - intros code Hcode Hexit. rewrite Hcode in Hrun. split.
    + by rewrite (handler_block_raises _ _ _ _ _ _ Hrun Hexit).
    + apply contains_spec, occurs_in_middle.
Qed.

Lemma fetch_failure_is_reported_witness :
  (handler (serving 404 "gone" (mret None)) sample_event
           sample_context sample_world).1 =
  Ok (PDict [(KStr "statusCode", PInt 400);
             (KStr "body",
              PDict [(KStr "errorMessage",
                      PStr ("Failed to fetch app code: " +:+ "gone" +:+
                            newline));
                     (KStr "errorType", PStr "AssertionError");
                     (KStr "stackTrace", PList []);
                     (KStr "requestId", PStr "req-1")])]) ∧
  contains "gone" ("Failed to fetch app code: " +:+ "gone" +:+ newline) = true.
Proof.
  assert ((MkResponse 404 (Decoded "gone")).(status) ≠ 200%Z) as Hstatus
    by done.
  apply (proj2 (fetch_failure_is_reported (serving 404 "gone" (mret None))
                  sample_event sample_context sample_world
                  (PDict [(KStr "x", PInt 1)])
                  (PStr "https://good.example/a.script")
                  (MkResponse 404 (Decoded "gone"))
                  eq_refl eq_refl eq_refl Hstatus) "gone");
    reflexivity.
Defined.

(** C4, counterexample.  The fetch answers 404 with the body "gone":
    the handler's response does not carry an error message that
    contains both the status and the body, because the message,
    "Failed to fetch app code: gone" and a newline, does not contain
    "404". *)
Lemma fetch_failure_message_lacks_status :
  (handler (serving 404 "gone" (mret None)) sample_event
           sample_context sample_world).1 =
  Ok (PDict [(KStr "statusCode", PInt 400);
             (KStr "body",
              PDict [(KStr "errorMessage",
                      PStr ("Failed to fetch app code: gone" +:+ newline));
                     (KStr "errorType", PStr "AssertionError");
                     (KStr "stackTrace", PList []);
                     (KStr "requestId", PStr "req-1")])]) ∧
  ¬ (∃ msg ty,
       (handler (serving 404 "gone" (mret None)) sample_event
                sample_context sample_world).1 =
       Ok (PDict [(KStr "statusCode", PInt 400);
                  (KStr "body",
                   PDict [(KStr "errorMessage", PStr msg);
                          (KStr "errorType", PStr ty);
                          (KStr "stackTrace", PList []);
                          (KStr "requestId", PStr "req-1")])]) ∧
       contains (pretty 404%Z) msg = true ∧
       contains "gone" msg = true).
Proof.
  split; [reflexivity|].
  intros (msg & ty & He & Hstatus & _).
  vm_compute in He. injection He as Hmsg _. subst msg.
  vm_compute in Hstatus. discriminate Hstatus.
Qed.

(** C6, as amended.  When [main] raises an exception [e] and
    [__exit__] raises nothing: if the class of [e] derives from
    [Exception] and [str(e)] returns a text, the handler returns status
    code 400 with [errorType] the name of the class of [e] itself (the
    exception is not wrapped), [errorMessage] equal to [str(e)], an
    empty [stackTrace] and the request id of the context; if [str(e)]
    raises, the exception it raises leaves the handler; if the class of
    [e] does not derive from [Exception], [e] leaves the handler.  When
    [__exit__] raises, its error is the one reported, with status code
    400, whatever [main] raised. *)
Theorem main_exception_is_reported
    ext event context w inputs url resp code main w2 e w3 :
  event !! "inputs" = Some inputs →
  event !! "url" = Some url →
  http_request ext url (headers_of ext event) = Fetched resp →
  status resp = 200%Z →
  data_decode resp = Decoded code →
  exec ext code (entered w) = (Ok (Some main), w2) →
  main inputs w2 = (Raise e, w3) →
  ((cleanup w3).1 = Ok () →
   (∀ msg, exc_is_Exception e = true → exc_str e = StrOk msg →
      (handler ext event context w).1 =
      Ok (PDict [(KStr "statusCode", PInt 400);
                 (KStr "body",
                  PDict [(KStr "errorMessage", PStr msg);
                         (KStr "errorType", PStr (exc_type e));
                         (KStr "stackTrace", PList []);
                         (KStr "requestId",
                          PStr (aws_request_id context))])])) ∧
   (∀ e', exc_is_Exception e = true → exc_str e = StrRaises e' →
      (handler ext event context w).1 = Raise e') ∧
   (exc_is_Exception e = false →
      (handler ext event context w).1 = Raise e)) ∧
  (∀ cls msg, (cleanup w3).1 = Raise (error cls msg) →
     (handler ext event context w).1 =
     Ok (PDict [(KStr "statusCode", PInt 400);
                (KStr "body",
                 PDict [(KStr "errorMessage", PStr msg);
                        (KStr "errorType", PStr cls);
                        (KStr "stackTrace", PList []);
                        (KStr "requestId",
                         PStr (aws_request_id context))])])).
Proof.
  intros Hin Hurl Hfetch Hstatus Hcode Hexec Hmain.
  pose proof (run_main _ _ _ _ _ _ _ _ _ Hin Hurl Hfetch Hstatus Hcode Hexec)
    as Hrun.
  rewrite Hmain in Hrun. split.
  - intros Hexit.
    pose proof (handler_block_raises _ _ context _ _ _ Hrun Hexit) as H.
    split_and!.
    + intros msg He Hstr. by rewrite H, He, Hstr.
    + intros e' He Hstr. by rewrite H, He, Hstr.
    + intros He. by rewrite H, He.
  - intros cls msg Hexit.
    destruct (handler_exit_raises ext event context w (error cls msg))
      as (cls' & msg' & Heq & H); [by rewrite Hrun|].
    injection Heq as <- <-. exact H.
Qed.

Lemma main_exception_is_reported_witness :
  (handler (serving 200 "def main(inputs): raise ValueError('boom')"
                    (defines (main_raises (ValueError "boom"))))
           sample_event sample_context sample_world).1 =
  Ok (PDict [(KStr "statusCode", PInt 400);
             (KStr "body",
              PDict [(KStr "errorMessage", PStr "boom");
                     (KStr "errorType", PStr "ValueError");
                     (KStr "stackTrace", PList []);
                     (KStr "requestId", PStr "req-1")])]).
Proof.
  apply (proj1 (proj1 (main_exception_is_reported
           (serving 200 "def main(inputs): raise ValueError('boom')"
                    (defines (main_raises (ValueError "boom"))))
           sample_event sample_context sample_world
           (PDict [(KStr "x", PInt 1)])
           (PStr "https://good.example/a.script")
           (MkResponse 200 (Decoded "def main(inputs): raise ValueError('boom')"))
           "def main(inputs): raise ValueError('boom')"
           (main_raises (ValueError "boom"))
           (entered sample_world) (ValueError "boom") (entered sample_world)
           eq_refl eq_refl eq_refl eq_refl eq_refl eq_refl eq_refl)
           eq_refl) "boom");
    reflexivity.
Defined.

(** C6, counterexample.  A script whose [main] raises [SystemExit]
    (what [sys.exit(1)] does): no response is returned, the exception
    leaves [handler].  And for a [main] that raises [ValueError("boom")]
    the reported [errorType] is "ValueError", not "RuntimeError". *)
Lemma main_SystemExit_escapes :
  (handler (serving 200 "" (defines (main_raises SystemExit)))
           sample_event sample_context sample_world).1 = Raise SystemExit ∧
  ¬ (∃ r, (handler (serving 200 "" (defines (main_raises SystemExit)))
                   sample_event sample_context sample_world).1 = Ok r) ∧
  (handler (serving 200 "" (defines (main_raises (ValueError "boom"))))
           sample_event sample_context sample_world).1 ≠
  Ok (PDict [(KStr "statusCode", PInt 400);
             (KStr "body",
              PDict [(KStr "errorMessage", PStr "boom");
                     (KStr "errorType", PStr "RuntimeError");
                     (KStr "stackTrace", PList []);
                     (KStr "requestId", PStr "req-1")])]).
Proof.
  split_and!.
  - reflexivity.
  - intros [r Hr]. vm_compute in Hr. discriminate Hr.
  - intros H. vm_compute in H. discriminate H.
Qed.

(** C7, as amended.  Every exception that derives from [Exception],
    prints as text and leaves the block under [with] (raised by the
    fetch, the decoding, an assertion, the script, [main] or [to_json])
    is caught by [handler] and answered with the failure shape: status
    code 400, [errorMessage], [errorType], an empty [stackTrace] and the
    request id of the context; the message and the type are those of
    the exception when [__exit__] raises nothing.  Every call of
    [handler] ends in one of four ways: the success response; the
    failure shape; the propagation to the host of an exception that
    does not derive from [Exception], raised inside the block while
    [__exit__] raised nothing; or the propagation of the exception that
    [str(e)] raises in the [except] clause, for an exception [e] of the
    block that derives from [Exception], while [__exit__] raised
    nothing. *)
Theorem handler_outcomes ext event context w :
  (∀ e w2 msg,
     run ext event (entered w) = (Raise e, w2) →
     exc_is_Exception e = true →
     exc_str e = StrOk msg →
     ∃ msg' ty',
       (handler ext event context w).1 =
       Ok (PDict [(KStr "statusCode", PInt 400);
                  (KStr "body",
                   PDict [(KStr "errorMessage", PStr msg');
                          (KStr "errorType", PStr ty');
                          (KStr "stackTrace", PList []);
                          (KStr "requestId",
                           PStr (aws_request_id context))])]) ∧
       ((cleanup w2).1 = Ok () → msg' = msg ∧ ty' = exc_type e)) ∧
  ((∃ body,
      (handler ext event context w).1 =
      Ok (PDict [(KStr "statusCode", PInt 200); (KStr "body", body)])) ∨
   (∃ msg ty,
      (handler ext event context w).1 =
      Ok (PDict [(KStr "statusCode", PInt 400);
                 (KStr "body",
                  PDict [(KStr "errorMessage", PStr msg);
                         (KStr "errorType", PStr ty);
                         (KStr "stackTrace", PList []);
                         (KStr "requestId",
                          PStr (aws_request_id context))])])) ∨
   (∃ e, exc_is_Exception e = false ∧
         (run ext event (entered w)).1 = Raise e ∧
         (cleanup (run ext event (entered w)).2).1 = Ok () ∧
         (handler ext event context w).1 = Raise e) ∨
   (∃ e e', exc_is_Exception e = true ∧
            exc_str e = StrRaises e' ∧
            (run ext event (entered w)).1 = Raise e ∧
            (cleanup (run ext event (entered w)).2).1 = Ok () ∧
            (handler ext event context w).1 = Raise e')).
Proof.
  split.
  - intros e w2 msg Hrun He Hstr.
    destruct (cleanup w2).1 as [[]|e'] eqn:Hexit.
    + exists msg, (exc_type e). split; [|done].
      by rewrite (handler_block_raises _ _ _ _ _ _ Hrun Hexit), He, Hstr.
    + destruct (handler_exit_raises ext event context w e')
        as (cls' & msg' & _ & H); [by rewrite Hrun|].
      exists msg', cls'. split; [exact H | done].
  - destruct (run ext event (entered w)) as [[r|e] w2] eqn:Hrun;
      destruct (cleanup w2).1 as [[]|e'] eqn:Hexit.
    + apply run_Ok in Hrun as Hr. destruct Hr as [body ->]. left.
      exists body. by rewrite (handler_block_returns _ _ _ _ _ _ Hrun Hexit).
    + right; left.
      destruct (handler_exit_raises ext event context w e')
        as (cls' & msg' & _ & H); [by rewrite Hrun|].
      by exists msg', cls'.
    + pose proof (handler_block_raises _ _ context _ _ _ Hrun Hexit) as H.
      destruct (exc_is_Exception e) eqn:He.
      * destruct (exc_str e) as [msg|e''] eqn:Hstr.
        -- right; left. by exists msg, (exc_type e).
        -- right; right; right. by exists e, e''.
      * right; right; left. by exists e.
    + right; left.
      destruct (handler_exit_raises ext event context w e')
        as (cls' & msg' & _ & H); [by rewrite Hrun|].
      by exists msg', cls'.
Qed.

Lemma handler_outcomes_witness :
  ∃ msg' ty',
    (handler (serving 200 "" (mret None))
             sample_event sample_context sample_world).1 =
    Ok (PDict [(KStr "statusCode", PInt 400);
               (KStr "body",
                PDict [(KStr "errorMessage", PStr msg');
                       (KStr "errorType", PStr ty');
                       (KStr "stackTrace", PList []);
                       (KStr "requestId", PStr "req-1")])]) ∧
    ((cleanup (entered sample_world)).1 = Ok () →
     msg' = "'def main(inputs):' is not defined" ∧
     ty' = "AssertionError").
Proof.
  apply (proj1 (handler_outcomes (serving 200 "" (mret None))
                  sample_event sample_context sample_world)
           (AssertionError "'def main(inputs):' is not defined")
           (entered sample_world)
           "'def main(inputs):' is not defined");
    reflexivity.
Defined.

(** C7, counterexample.  A script that raises [KeyboardInterrupt]
    while it is loaded: the exception is not caught at the boundary,
    no response is returned. *)
Lemma load_KeyboardInterrupt_escapes :
  (handler (serving 200 "" (lift (Raise KeyboardInterrupt)))
           sample_event sample_context sample_world).1 =
  Raise KeyboardInterrupt ∧
  ¬ (∃ r, (handler (serving 200 "" (lift (Raise KeyboardInterrupt)))
                   sample_event sample_context sample_world).1 = Ok r).
Proof.
  split; [reflexivity|].
  intros [r Hr]. vm_compute in Hr. discriminate Hr.
Qed.

(** ** Cleanup of [/tmp] *)

(** C5, evaluated where the code departs from it.  With a file in
    [/tmp] whose removal is refused, [__exit__] raises the
    [PermissionError] of [os.remove]; the handler then answers the
    failure response for that error although [main] returned 2. *)
Theorem exit_remove_error_escapes :
  (NewEnv_exit (NewEnv_init pinned_world) pinned_world).1 =
  Raise (PermissionError "/tmp/pinned") ∧
  (handler (serving 200 "" (defines (main_returns (PInt 2))))
           sample_event sample_context pinned_world).1 =
  Ok (PDict [(KStr "statusCode", PInt 400);
             (KStr "body",
              PDict [(KStr "errorMessage",
                      PStr "[Errno 13] Permission denied: '/tmp/pinned'");
                     (KStr "errorType", PStr "PermissionError");
                     (KStr "stackTrace", PList []);
                     (KStr "requestId", PStr "req-1")])]) ∧
  (handler (serving 200 "" (defines (main_returns (PInt 2))))
           sample_event sample_context sample_world).1 =
  Ok (PDict [(KStr "statusCode", PInt 200); (KStr "body", PInt 2)]).
Proof. split_and!; reflexivity. Qed.

(** ** Containers that become lists *)





(** * Further properties *)

(** ** The sanitizer *)

(** X1.  Sanitizing is idempotent: a value returned by [to_json] is
    returned unchanged when it is given to [to_json] again. *)
Theorem to_json_idempotent (vm : interpreter) (v r : pyval) :
  to_json vm v = Ok r → to_json vm r = Ok r.
Proof.
  intros (Henc & Hw & ->)%to_json_spec.
  apply (to_json_fixes_json any_float).
  - by apply normalize_spec_composed.
  - by apply normalize_spec_within.
Qed.

Lemma to_json_idempotent_witness :
  to_json cpython
    (PTuple [the_set_123; PForeign (FObj "Decimal" (StrOk "1.5"))]) =
  Ok (PList [PList [PInt 1; PInt 2; PInt 3]; PStr "1.5"]) ∧
  to_json cpython (PList [PList [PInt 1; PInt 2; PInt 3]; PStr "1.5"]) =
  Ok (PList [PList [PInt 1; PInt 2; PInt 3]; PStr "1.5"]).
Proof.
  split; [reflexivity|].
  apply (to_json_idempotent cpython
           (PTuple [the_set_123; PForeign (FObj "Decimal" (StrOk "1.5"))])).
  reflexivity.
Defined.



Lemma mapR_first_Raise {A B} (f : A → result B) pre x post e :
  Forall (λ a, ∃ b, f a = Ok b) pre → f x = Raise e →
  mapR f (pre ++ x :: post) = Raise e.
Proof.
  intros Hpre Hx. induction Hpre as [|a pre [b Ha] _ IH]; simpl.
  - by rewrite Hx.
  - by rewrite Ha, IH.
Qed.



(** X4.  A dictionary with a key that is not a [str], [int], [float],
    [bool] or [None] makes [to_json] raise the encoder's [TypeError],
    which names the class of the key: [set_default] is not consulted
    for keys, and the value under the key is not looked at. *)
Theorem unsupported_key_raises (vm : interpreter) pre cls v post :
  Forall (λ kv : pykey * pyval,
            (∃ s, encode_key (int_max_str_digits vm) kv.1 = Ok s) ∧
            ∃ y, to_json vm kv.2 = Ok y) pre →
  to_json (deeper vm) (PDict (pre ++ (KOther cls, v) :: post)) =
  Raise (TypeError
           ("keys must be str, int, float, bool or None, not " +:+ cls)).
Proof.
  intros Hpre. rewrite to_json_dict.
  rewrite (mapR_first_Raise _ pre (KOther cls, v) post
             (TypeError
                ("keys must be str, int, float, bool or None, not " +:+ cls)));
    [done | | done].
  eapply Forall_impl; [exact Hpre|].
  intros kv [[s Hs] [y Hy]]. exists (s, y). by rewrite Hs, Hy.
Qed.

Lemma unsupported_key_raises_witness :
  to_json (deeper cpython)
          (PDict ([(KInt 1, PStr "a")] ++
                  (KOther "tuple", the_set_123) :: [(KStr "b", self_list)])) =
  Raise (TypeError
           "keys must be str, int, float, bool or None, not tuple").
Proof.
  apply (unsupported_key_raises cpython [(KInt 1, PStr "a")] "tuple"
           the_set_123 [(KStr "b", self_list)]).
  constructor; [|constructor].
  split; [by exists "1" | by exists (PStr "a")].
Defined.

(** ** Keys that are written as the same text *)







(** ** The environment given to the script *)

(** X7.  [__enter__] adds nothing: every entry of the environment it
    installs is an entry of the captured environment, under a key that
    is kept by the filter and names no secret; and it leaves [/tmp] as
    it is. *)
Theorem entered_only_filters (w : world) :
  (∀ key value,
     environ (entered w) !! key = Some value →
     environ w !! key = Some value ∧ kept key = true ∧ ¬ names_secret key) ∧
  tmp (entered w) = tmp w ∧
  scandir_error (entered w) = scandir_error w.
Proof.
  split; [|done]. intros key value. rewrite entered_lookup.
  destruct (kept key) eqn:Hkept; [|done]. intros Hkey.
  split_and!; [done | done |].
  intros Hsecret%names_secret_not_kept. congruence.
Qed.

Lemma entered_only_filters_witness :
  environ sample_world !! "PATH" = Some "/usr/bin" ∧ kept "PATH" = true ∧
  ¬ names_secret "PATH".
Proof.
  apply (proj1 (entered_only_filters sample_world) "PATH" "/usr/bin").
  reflexivity.
Defined.

(** X8.  The variable from which the module reads its access key is
    withheld from the script: whatever its value when the module was
    loaded, it is absent from the environment installed by
    [__enter__]. *)
Theorem api_key_variable_is_withheld (w : world) (value : string) :
  environ w !! api_key_variable = Some value →
  module_api_key (environ w) = value ∧
  environ (entered w) !! api_key_variable = None.
Proof.
  intros Hvalue. split.
  - unfold module_api_key. by rewrite Hvalue.
  - by rewrite entered_lookup.
Qed.

Lemma api_key_variable_is_withheld_witness :
  module_api_key (environ keyed_world) = "t0k3n" ∧
  environ (entered keyed_world) !! api_key_variable = None.
Proof.
  apply (api_key_variable_is_withheld keyed_world "t0k3n"). reflexivity.
Defined.

(** ** Cleanup of [/tmp] by [__exit__] *)









(** ** More paths of the handler *)



(** X13.  When the executed script leaves no binding for [main], the
    handler answers status code 400 with error type [AssertionError]
    and the message "'def main(inputs):' is not defined", whatever the
    inputs are (provided [__exit__] raises nothing). *)
Theorem missing_main_is_reported
    ext event context w inputs url resp code w2 :
  event !! "inputs" = Some inputs →
  event !! "url" = Some url →
  http_request ext url (headers_of ext event) = Fetched resp →
  status resp = 200%Z →
  data_decode resp = Decoded code →
  exec ext code (entered w) = (Ok None, w2) →
  (cleanup w2).1 = Ok () →
  (handler ext event context w).1 =
  Ok (PDict [(KStr "statusCode", PInt 400);
             (KStr "body",
              PDict [(KStr "errorMessage",
                      PStr "'def main(inputs):' is not defined");
                     (KStr "errorType", PStr "AssertionError");
                     (KStr "stackTrace", PList []);
                     (KStr "requestId", PStr (aws_request_id context))])]).
Proof.
  intros Hin Hurl Hfetch Hstatus Hcode Hexec Hexit.
  pose proof (run_fetched ext event (entered w) _ _ _ Hin Hurl Hfetch) as Hrun.
  rewrite Hcode, Hexec, bool_decide_eq_true_2 in Hrun by done.
  by rewrite (handler_block_raises _ _ _ _ _ _ Hrun Hexit).
Qed.

Lemma missing_main_is_reported_witness :
  (handler (serving 200 "x = 1" (mret None))
           sample_event sample_context sample_world).1 =
  Ok (PDict [(KStr "statusCode", PInt 400);
             (KStr "body",
              PDict [(KStr "errorMessage",
                      PStr "'def main(inputs):' is not defined");
                     (KStr "errorType", PStr "AssertionError");
                     (KStr "stackTrace", PList []);
                     (KStr "requestId", PStr "req-1")])]).
Proof.
  apply (missing_main_is_reported (serving 200 "x = 1" (mret None))
           sample_event sample_context sample_world
           (PDict [(KStr "x", PInt 1)])
           (PStr "https://good.example/a.script")
           (MkResponse 200 (Decoded "x = 1")) "x = 1"
           (entered sample_world));
    reflexivity.
Defined.

(** X14.  When the script raises while [exec] runs it, with an
    exception [e] that derives from [Exception] and whose [str()]
    returns a text, the handler answers status code 400 with the class
    name of [e] and that text (provided [__exit__] raises nothing);
    [main] is not looked for.  When [str(e)] raises instead, the
    exception it raises leaves the handler. *)
Theorem load_exception_is_reported
    ext event context w inputs url resp code e w2 :
  event !! "inputs" = Some inputs →
  event !! "url" = Some url →
  http_request ext url (headers_of ext event) = Fetched resp →
  status resp = 200%Z →
  data_decode resp = Decoded code →
  exec ext code (entered w) = (Raise e, w2) →
  exc_is_Exception e = true →
  (cleanup w2).1 = Ok () →
  (∀ msg, exc_str e = StrOk msg →
     (handler ext event context w).1 =
     Ok (PDict [(KStr "statusCode", PInt 400);
                (KStr "body",
                 PDict [(KStr "errorMessage", PStr msg);
                        (KStr "errorType", PStr (exc_type e));
                        (KStr "stackTrace", PList []);
                        (KStr "requestId",
                         PStr (aws_request_id context))])])) ∧
  (∀ e', exc_str e = StrRaises e' →
     (handler ext event context w).1 = Raise e').
Proof.
  intros Hin Hurl Hfetch Hstatus Hcode Hexec He Hexit.
  pose proof (run_fetched ext event (entered w) _ _ _ Hin Hurl Hfetch) as Hrun.
  rewrite Hcode, Hexec, bool_decide_eq_true_2 in Hrun by done.
  rewrite (handler_block_raises _ _ _ _ _ _ Hrun Hexit), He.
  split; [intros msg -> | intros e' ->]; done.
Qed.

Lemma load_exception_is_reported_witness :
  (handler (serving 200 "def main(:"
              (lift (Raise (error "SyntaxError" "invalid syntax"))))
           sample_event sample_context sample_world).1 =
  Ok (PDict [(KStr "statusCode", PInt 400);
             (KStr "body",
              PDict [(KStr "errorMessage", PStr "invalid syntax");
                     (KStr "errorType", PStr "SyntaxError");
                     (KStr "stackTrace", PList []);
                     (KStr "requestId", PStr "req-1")])]) ∧
  (handler (serving 200 "raise Unprintable()" (lift (Raise Unprintable)))
           sample_event sample_context sample_world).1 =
  Raise (TypeError "__str__ returned non-string (type NoneType)").
Proof.
  split.
  - apply (proj1 (load_exception_is_reported
             (serving 200 "def main(:"
                (lift (Raise (error "SyntaxError" "invalid syntax"))))
             sample_event sample_context sample_world
             (PDict [(KStr "x", PInt 1)])
             (PStr "https://good.example/a.script")
             (MkResponse 200 (Decoded "def main(:")) "def main(:"
             (error "SyntaxError" "invalid syntax")
             (entered sample_world)
             eq_refl eq_refl eq_refl eq_refl eq_refl eq_refl eq_refl eq_refl)
             "invalid syntax").
    reflexivity.
  - apply (proj2 (load_exception_is_reported
             (serving 200 "raise Unprintable()" (lift (Raise Unprintable)))
             sample_event sample_context sample_world
             (PDict [(KStr "x", PInt 1)])
             (PStr "https://good.example/a.script")
             (MkResponse 200 (Decoded "raise Unprintable()"))
             "raise Unprintable()" Unprintable
             (entered sample_world)
             eq_refl eq_refl eq_refl eq_refl eq_refl eq_refl eq_refl eq_refl)
             (TypeError "__str__ returned non-string (type NoneType)")).
    reflexivity.
Defined.

(** X15.  The fetched text is executed only when both keys are there,
    the fetch answers 200 and the body decodes: in every other case
    the result and the final state of the handler are the same
    whatever executing the text would have done. *)
Theorem script_runs_only_after_good_fetch ext ext' event context w :
  http_request ext = http_request ext' →
  api_key ext = api_key ext' →
  reaches_exec ext event = false →
  handler ext event context w = handler ext' event context w.
Proof.
  intros Hhttp Hkey Hreach.
  assert (run ext event (entered w) = run ext' event (entered w)) as Hrun.
  { unfold reaches_exec in Hreach.
    unfold run, getitem, py_assert, mbind, py_bind, lift.
    assert (headers_of ext event = headers_of ext' event) as <-
      by (unfold headers_of; by rewrite Hkey).
    rewrite <- Hhttp.
    destruct (event !! "inputs") as [inputs|]; [|done].
    destruct (event !! "url") as [url|]; [|done].
    destruct (http_request ext url _) as [resp|cls msg]; [|done].
    destruct (data_decode resp) as [code|reason]; [|done].
    rewrite andb_true_r in Hreach. by rewrite Hreach. }
  by rewrite !handler_eq, !with_NewEnv_eq, Hrun.
Qed.

Lemma script_runs_only_after_good_fetch_witness :
  handler (serving 503 "busy" (defines (main_raises SystemExit)))
          sample_event sample_context sample_world =
  handler (serving 503 "busy" (mret None))
          sample_event sample_context sample_world.
Proof.
  apply (script_runs_only_after_good_fetch
           (serving 503 "busy" (defines (main_raises SystemExit)))
           (serving 503 "busy" (mret None))
           sample_event sample_context sample_world);
    reflexivity.
Defined.



(** X17.  The body is decoded before the status is checked: when the
    body is not UTF-8, the handler answers status code 400 with error
    type [UnicodeDecodeError], whatever the status of the response,
    200 or not (provided [__exit__] raises nothing). *)
Theorem undecodable_body_is_reported
    ext event context w inputs url resp reason :
  event !! "inputs" = Some inputs →
  event !! "url" = Some url →
  http_request ext url (headers_of ext event) = Fetched resp →
  data_decode resp = Undecodable reason →
  (cleanup w).1 = Ok () →
  (handler ext event context w).1 =
  Ok (PDict [(KStr "statusCode", PInt 400);
             (KStr "body",
              PDict [(KStr "errorMessage", PStr reason);
                     (KStr "errorType", PStr "UnicodeDecodeError");
                     (KStr "stackTrace", PList []);
                     (KStr "requestId", PStr (aws_request_id context))])]).
Proof.
  intros Hin Hurl Hfetch Hdata Hexit.
  pose proof (run_fetched ext event (entered w) _ _ _ Hin Hurl Hfetch) as Hrun.
  rewrite Hdata in Hrun.
  by rewrite (handler_block_raises _ _ _ _ _ _ Hrun Hexit).
Qed.

Lemma undecodable_body_is_reported_witness :
  (handler (garbled 404 "invalid start byte")
           sample_event sample_context sample_world).1 =
  Ok (PDict [(KStr "statusCode", PInt 400);
             (KStr "body",
              PDict [(KStr "errorMessage", PStr "invalid start byte");
                     (KStr "errorType", PStr "UnicodeDecodeError");
                     (KStr "stackTrace", PList []);
                     (KStr "requestId", PStr "req-1")])]).
Proof.
  apply (undecodable_body_is_reported (garbled 404 "invalid start byte")
           sample_event sample_context sample_world
           (PDict [(KStr "x", PInt 1)])
           (PStr "https://good.example/a.script")
           (MkResponse 404 (Undecodable "invalid start byte")));
    reflexivity.
Defined.



(** ** The state between invocations *)

(** X19.  On every path of the handler (success, failure response or
    propagated exception) the state it leaves is the captured
    environment together with what the cleanup of [__exit__] leaves of
    the [/tmp] that the block left; when the script is not reached,
    that is what the cleanup leaves of the initial [/tmp]. *)
Theorem handler_final_state ext event context w :
  (handler ext event context w).2 =
  MkWorld (environ w) (cleanup (run ext event (entered w)).2).2
          (scandir_error (run ext event (entered w)).2) ∧
  (reaches_exec ext event = false →
   (handler ext event context w).2 =
   MkWorld (environ w) (cleanup w).2 (scandir_error w)).
Proof.
  split; [apply handler_state|].
  intros Hreach. rewrite handler_state.
  assert ((run ext event (entered w)).2 = entered w) as ->; [|done].
  unfold reaches_exec in Hreach.
  unfold run, getitem, py_assert, mbind, py_bind, lift.
  destruct (event !! "inputs") as [inputs|]; [|done].
  destruct (event !! "url") as [url|]; [|done].
  destruct (http_request ext url _) as [resp|cls msg]; [|done].
  destruct (data_decode resp) as [code|reason]; [|done].
  rewrite andb_true_r in Hreach. by rewrite Hreach.
Qed.

Lemma handler_final_state_witness :
  (handler (serving 404 "gone" (defines (main_raises SystemExit)))
           sample_event sample_context sample_world).2 =
  MkWorld (environ sample_world) (cleanup sample_world).2
          (scandir_error sample_world).
Proof.
  apply (proj2 (handler_final_state
                  (serving 404 "gone" (defines (main_raises SystemExit)))
                  sample_event sample_context sample_world)).
  reflexivity.
Defined.

(** X20.  An exception raised by [__exit__] (the removal of a file is
    refused, an entry or [/tmp] itself cannot be read) takes the place
    of the outcome of the block, whatever it was: a value, an
    exception, also one that does not derive from [Exception]; the
    handler then answers status code 400 with the class name and the
    message of the exception of [__exit__]. *)
Theorem exit_exception_replaces_outcome ext event context w e :
  (cleanup (run ext event (entered w)).2).1 = Raise e →
  ∃ cls msg,
    e = error cls msg ∧
    (handler ext event context w).1 =
    Ok (PDict [(KStr "statusCode", PInt 400);
               (KStr "body",
                PDict [(KStr "errorMessage", PStr msg);
                       (KStr "errorType", PStr cls);
                       (KStr "stackTrace", PList []);
                       (KStr "requestId", PStr (aws_request_id context))])]).
Proof. apply handler_exit_raises. Qed.

Lemma exit_exception_replaces_outcome_witness :
  ∃ cls msg,
    PermissionError "/tmp/pinned" = error cls msg ∧
    (handler (serving 200 "" (defines (main_raises SystemExit)))
             sample_event sample_context pinned_world).1 =
    Ok (PDict [(KStr "statusCode", PInt 400);
               (KStr "body",
                PDict [(KStr "errorMessage", PStr msg);
                       (KStr "errorType", PStr cls);
                       (KStr "stackTrace", PList []);
                       (KStr "requestId", PStr "req-1")])]).
Proof.
  apply (exit_exception_replaces_outcome
           (serving 200 "" (defines (main_raises SystemExit)))
           sample_event sample_context pinned_world
           (PermissionError "/tmp/pinned")).
  reflexivity.
Defined.

(** X21.  Nothing that a script does to the environment reaches the
    next invocation in the same process: the environment in which the
    next script starts is the one in which this script started, and
    after the two calls the environment is still the initial one. *)
Theorem environment_does_not_leak
    ext1 event1 context1 ext2 event2 context2 w :
  environ (entered (handler ext1 event1 context1 w).2) = environ (entered w) ∧
  environ (handler ext2 event2 context2
             (handler ext1 event1 context1 w).2).2 = environ w.
Proof.
  split.
  - by rewrite handler_state.
  - by rewrite !handler_state.
Qed.

(** ** Further paths of [__exit__] *)

(** X22.  When [/tmp] cannot be listed at the end of the block,
    [__exit__] has restored the environment already, touches nothing
    in [/tmp], and raises the error of [scandir]; the handler answers
    status code 400 with the class name and the message of that error,
    whatever the block did. *)
Theorem unlistable_tmp_is_reported ext event context w cls msg :
  scandir_error (run ext event (entered w)).2 = Some (cls, msg) →
  (handler ext event context w).1 =
  Ok (PDict [(KStr "statusCode", PInt 400);
             (KStr "body",
              PDict [(KStr "errorMessage", PStr msg);
                     (KStr "errorType", PStr cls);
                     (KStr "stackTrace", PList []);
                     (KStr "requestId", PStr (aws_request_id context))])]) ∧
  tmp (handler ext event context w).2 = tmp (run ext event (entered w)).2 ∧
  environ (handler ext event context w).2 = environ w.
Proof.
  intros Hlist.
  assert (cleanup (run ext event (entered w)).2 =
          (Raise (error cls msg), tmp (run ext event (entered w)).2))
    as Hexit by (unfold cleanup; by rewrite Hlist).
  split_and!.
  - destruct (handler_exit_raises ext event context w (error cls msg))
      as (cls' & msg' & Heq & H); [by rewrite Hexit|].
    injection Heq as <- <-. exact H.
  - by rewrite handler_state, Hexit.
  - by rewrite handler_state.
Qed.

Lemma unlistable_tmp_is_reported_witness :
  (handler (serving 200 "" (defines (main_returns (PInt 2))))
           sample_event sample_context unlisted_world).1 =
  Ok (PDict [(KStr "statusCode", PInt 400);
             (KStr "body",
              PDict [(KStr "errorMessage",
                      PStr "[Errno 2] No such file or directory: '/tmp'");
                     (KStr "errorType", PStr "FileNotFoundError");
                     (KStr "stackTrace", PList []);
                     (KStr "requestId", PStr "req-1")])]).
Proof.
  apply (proj1 (unlistable_tmp_is_reported
                  (serving 200 "" (defines (main_returns (PInt 2))))
                  sample_event sample_context unlisted_world
                  "FileNotFoundError"
                  "[Errno 2] No such file or directory: '/tmp'"
                  eq_refl)).
Defined.


